(** * Prerequisite graph validator (scripts/validate_graph.py)

    A shallow embedding of the validator's analyses: module discovery,
    reference validation, DFS cycle detection, fixed-point orphan detection,
    the progression rule and the driver that concatenates their findings. *)

From stdpp Require Import gmap strings pretty list sorting relations.

Local Open Scope Z_scope.
#[local] Set Warnings "-clear-no-such-hyp".

(** ** Data model *)

(** A module's [METADATA] dictionary, restricted to the keys the validator
    reads.  Every key is read with [dict.get], so an absent key is [None]
    (and an absent ['prerequisites'] the empty list). *)
Record Module := {
  title : option string;
  bloom_level : option string;
  scaffolding_level : option string;
  prerequisites : list Z
}.

(** [dict[int, ...]]: a Python dictionary keeps insertion order, which the
    analyses iterate in, so it is an association list (with distinct keys). *)
Fixpoint dict_get {V : Type} (d : list (Z * V)) (k : Z) : option V :=
  match d with
  | [] => None
  | (k', v) :: d' => if decide (k' = k) then Some v else dict_get d' k
  end.

Definition dict_keys {V : Type} (d : list (Z * V)) : list Z := d.*1.

(** [k in d] *)
Definition dict_mem {V : Type} (d : list (Z * V)) (k : Z) : bool :=
  bool_decide (is_Some (dict_get d k)).

(** The iteration order of a Python [set] is an implementation detail of the
    interpreter: all that is known of [for x in set(l)] is that it yields
    every element of [l] exactly once. *)
Record SetOrder := {
  set_iter : list Z → list Z;
  set_iter_elem : ∀ l x, x ∈ set_iter l ↔ x ∈ l;
  set_iter_NoDup : ∀ l, NoDup (set_iter l)
}.

(** One such order: each element at its last occurrence in the list. *)
Definition last_occurrence : SetOrder :=
  {| set_iter := remove_dups;
     set_iter_elem := λ l x, elem_of_remove_dups l x;
     set_iter_NoDup := NoDup_remove_dups |}.

(** The error strings of the validator, by the data they are formatted from. *)
Inductive Finding :=
  | DanglingPrerequisite (module_id : Z) (module_title : string) (prereq_id : Z)
  | CircularDependency (module_id : Z) (module_title : string)
  | NoFoundationModules
  | UnreachableModules (orphan_details : list (Z * string)) (foundation : list Z)
  | ProgressionViolation (module_id : Z) (module_title : string)
      (prereq_bloom curr_bloom prereq_scaffolding curr_scaffolding : string)
      (prereq_id : Z).

(** [metadata.get('title', 'Unknown')] *)
Definition get_title (m : Module) : string := default "Unknown"%string (title m).

(** ** validate_prerequisite_references *)

Definition validate_prerequisite_references (modules : list (Z * Module)) : list Finding :=
  flat_map (λ '(module_id, metadata),
      flat_map (λ prereq_id,
          if dict_mem modules prereq_id then []
          else [DanglingPrerequisite module_id (get_title metadata) prereq_id])
        (prerequisites metadata))
    modules.

(** ** detect_cycles *)

(** [{mid: set(m.get('prerequisites', [])) for mid, m in modules.items()}],
    each set given by its iteration order. *)
Definition cycle_graph (ord : SetOrder) (modules : list (Z * Module)) : list (Z * list Z) :=
  (λ '(mid, m), (mid, set_iter ord (prerequisites m))) <$> modules.

Section has_cycle.
Variable graph : list (Z * list Z).

(** [graph.get(node, [])] *)
Definition neighbors (node : Z) : list Z := default [] (dict_get graph node).

(** The [for neighbor in ...] loop of [has_cycle]; [rec] is the recursive
    call.  The result is the returned flag with the two mutated sets. *)
Fixpoint scan_neighbors (rec : Z → gset Z → gset Z → option (bool * gset Z * gset Z))
    (ns : list Z) (visited rec_stack : gset Z) : option (bool * gset Z * gset Z) :=
  match ns with
  | [] => Some (false, visited, rec_stack)
  | neighbor :: ns' =>
      if decide (neighbor ∉ visited) then
        match rec neighbor visited rec_stack with
        | None => None
        | Some (true, visited', rec_stack') => Some (true, visited', rec_stack')
        | Some (false, visited', rec_stack') => scan_neighbors rec ns' visited' rec_stack'
        end
      else if decide (neighbor ∈ rec_stack) then Some (true, visited, rec_stack)
      else scan_neighbors rec ns' visited rec_stack
  end.

(** [has_cycle] recurses on the call stack of the interpreter: [limit] is the
    number of nested calls of [has_cycle] that the recursion limit still
    admits (with the default limit of 1000, fewer than 1000 where
    [detect_cycles] makes the first call).  [None] stands for a call that
    raises: [RecursionError] when no frame is left, or the [KeyError] of
    [rec_stack.remove(node)]; nothing in [detect_cycles] catches either. *)
Fixpoint has_cycle (limit : nat) (node : Z) (visited rec_stack : gset Z)
    : option (bool * gset Z * gset Z) :=
  match limit with
  | O => None
  | S limit' =>
      match scan_neighbors (has_cycle limit') (neighbors node)
              ({[node]} ∪ visited) ({[node]} ∪ rec_stack) with
      | None => None
      | Some (true, visited', rec_stack') => Some (true, visited', rec_stack')
      | Some (false, visited', rec_stack') =>
          if decide (node ∈ rec_stack') then Some (false, visited', rec_stack' ∖ {[node]})
          else None
      end
  end.
End has_cycle.

(** The [for module_id in graph] loop; [visited] is shared by all traversals,
    each traversal starts from a fresh [set()] as recursion stack and with
    the whole of [limit]. *)
Fixpoint cycles_loop (graph : list (Z * list Z)) (limit : nat) (modules : list (Z * Module))
    (ids : list Z) (visited : gset Z) (errors : list Finding) : option (list Finding) :=
  match ids with
  | [] => Some errors
  | module_id :: ids' =>
      if decide (module_id ∉ visited) then
        match has_cycle graph limit module_id visited ∅ with
        | None => None
        | Some (true, visited', _) =>
            m ← dict_get modules module_id;
            cycles_loop graph limit modules ids' visited'
              (errors ++ [CircularDependency module_id (get_title m)])
        | Some (false, visited', _) =>
            cycles_loop graph limit modules ids' visited' errors
        end
      else cycles_loop graph limit modules ids' visited errors
  end.

(** [None]: [detect_cycles] raises what [has_cycle] raised. *)
Definition detect_cycles (limit : nat) (ord : SetOrder) (modules : list (Z * Module))
    : option (list Finding) :=
  let graph := cycle_graph ord modules in
  cycles_loop graph limit modules (dict_keys graph) ∅ [].

(** ** detect_orphans *)

(** A [set] that is only tested for membership, emptiness and inclusion. *)
Definition orphan_graph (modules : list (Z * Module)) : list (Z * gset Z) :=
  (λ '(mid, m), (mid, list_to_set (prerequisites m))) <$> modules.

(** [{mid for mid, prereqs in graph.items() if not prereqs}] *)
Definition foundation_of (graph : list (Z * gset Z)) : gset Z :=
  list_to_set (omap (λ '(mid, prereqs), if decide (prereqs = ∅) then Some mid else None) graph).

(** One [for mid, prereqs in graph.items()] pass of the [while changed] loop:
    the reachable set after the pass, and the flag [changed]. *)
Definition sweep_step (st : gset Z * bool) (item : Z * gset Z) : gset Z * bool :=
  let '(reachable, changed) := st in
  let '(mid, prereqs) := item in
  if decide ((mid ∉ reachable) ∧ (prereqs ⊆ reachable))
  then ({[mid]} ∪ reachable, true)
  else (reachable, changed).

Definition sweep_pass (graph : list (Z * gset Z)) (reachable : gset Z) : gset Z * bool :=
  foldl sweep_step (reachable, false) graph.

(** The [while changed] loop, bounded by [fuel] passes ([None] when the bound
    is exhausted).  Next to the final reachable set it returns the number of
    passes it made. *)
Fixpoint expand_reachable (graph : list (Z * gset Z)) (fuel : nat) (reachable : gset Z)
    : option (gset Z * nat) :=
  match fuel with
  | O => None
  | S fuel' =>
      let '(reachable', changed) := sweep_pass graph reachable in
      if changed
      then ('(r, passes) ← expand_reachable graph fuel' reachable'; Some (r, S passes))
      else Some (reachable', 1%nat)
  end.

(** [sorted(s)] *)
Definition sorted (s : gset Z) : list Z := merge_sort Z.le (elements s).

Definition detect_orphans (modules : list (Z * Module)) : option (list Finding) :=
  let graph := orphan_graph modules in
  let foundation_modules := foundation_of graph in
  if decide (foundation_modules = ∅) then Some [NoFoundationModules]
  else
    '(reachable, _) ← expand_reachable graph (S (length graph)) foundation_modules;
    let orphaned := list_to_set (dict_keys graph) ∖ reachable in
    if decide (orphaned = ∅) then Some []
    else
      orphan_details ← mapM (λ mid, m ← dict_get modules mid; Some (mid, get_title m))
                            (sorted orphaned);
      Some [UnreachableModules orphan_details (sorted foundation_modules)].

(** ** validate_progression_rules *)

Definition BLOOM_ORDER : list string :=
  ["Remember"; "Understand"; "Apply"; "Analyze"; "Evaluate"; "Create"]%string.

Definition SCAFFOLDING_VALUE : list (string * Z) :=
  [("HIGH", 3); ("MEDIUM", 2); ("LOW", 1)]%string.

(** [l.index(x)] for an [x in l] *)
Fixpoint list_index (x : string) (l : list string) : option Z :=
  match l with
  | [] => None
  | y :: l' => if decide (y = x) then Some 0 else Z.succ <$> list_index x l'
  end.

Fixpoint str_dict_get (d : list (string * Z)) (k : string) : option Z :=
  match d with
  | [] => None
  | (k', v) :: d' => if decide (k' = k) then Some v else str_dict_get d' k
  end.

(** The body of the inner loop, for the edge from [module_id] to
    [prereq_id]; every [continue] is an empty list of findings. *)
Definition check_progression (modules : list (Z * Module)) (module_id : Z)
    (module : Module) (prereq_id : Z) : list Finding :=
  match dict_get modules prereq_id with
  | None => []
  | Some prereq =>
      match bloom_level module, bloom_level prereq with
      | Some curr_bloom, Some prereq_bloom =>
          match list_index curr_bloom BLOOM_ORDER, list_index prereq_bloom BLOOM_ORDER with
          | Some curr_bloom_idx, Some prereq_bloom_idx =>
              match scaffolding_level module, scaffolding_level prereq with
              | Some curr_scaffolding, Some prereq_scaffolding =>
                  match str_dict_get SCAFFOLDING_VALUE curr_scaffolding,
                        str_dict_get SCAFFOLDING_VALUE prereq_scaffolding with
                  | Some curr_scaffolding_val, Some prereq_scaffolding_val =>
                      if decide (curr_bloom_idx > prereq_bloom_idx
                                 ∧ curr_scaffolding_val < prereq_scaffolding_val)
                      then [ProgressionViolation module_id (get_title module)
                              prereq_bloom curr_bloom prereq_scaffolding curr_scaffolding
                              prereq_id]
                      else []
                  | _, _ => []
                  end
              | _, _ => []
              end
          | _, _ => []
          end
      | _, _ => []
      end
  end.

Definition validate_progression_rules (modules : list (Z * Module)) : list Finding :=
  flat_map (λ '(module_id, module),
      flat_map (check_progression modules module_id module) (prerequisites module))
    modules.

(** ** discover_modules *)

(** What one [module_*] path of the sorted glob holds.  Executing
    [metadata.py] can raise an [Exception] ([ExecRaises]) or one of the
    exceptions that are no [Exception], [SystemExit] and [KeyboardInterrupt]
    ([ExecExits]), with the status the interpreter ends with when nothing
    catches it. *)
Inductive DirEntry :=
  | NotADirectory
  | NoMetadataFile
  | NoLoader
  | ExecRaises
  | ExecExits (status : Z)
  | NoMETADATA
  | METADATA (id : option Z) (metadata : Module).

Inductive PyException :=
  | NoModulesFound
  | DuplicateModuleID (module_id : Z) (dir_name : string)
  | ExecError (dir_name : string)
  | InterpreterExit (status : Z).

(** [isinstance(e, Exception)]: what [except Exception] catches. *)
Definition is_Exception (e : PyException) : bool :=
  match e with
  | InterpreterExit _ => false
  | _ => true
  end.

Inductive Warning :=
  | MissingMetadataFile (dir_name : string)
  | FailedToLoad (dir_name : string)
  | MissingMETADATA (dir_name : string)
  | MissingId (dir_name : string)
  | ErrorLoading (dir_name : string) (e : PyException).

(** The [try] block of the loop body: [inl e] when it raises [e], otherwise
    the warning it prints before [continue], or the registry it extends. *)
Definition try_load (modules : list (Z * Module)) (dir_name : string) (entry : DirEntry)
    : PyException + (Warning + list (Z * Module)) :=
  match entry with
  | NotADirectory | NoMetadataFile => inr (inr modules)
  | NoLoader => inr (inl (FailedToLoad dir_name))
  | ExecRaises => inl (ExecError dir_name)
  | ExecExits status => inl (InterpreterExit status)
  | NoMETADATA => inr (inl (MissingMETADATA dir_name))
  | METADATA None _ => inr (inl (MissingId dir_name))
  | METADATA (Some module_id) metadata =>
      if dict_mem modules module_id
      then inl (DuplicateModuleID module_id dir_name)
      else inr (inr (modules ++ [(module_id, metadata)]))
  end.

(** One iteration of [for module_dir in module_dirs], with its
    [except Exception as e: print(...); continue]: an exception that is no
    [Exception] leaves the loop. *)
Definition discover_step (st : list (Z * Module) * list Warning) (d : string * DirEntry)
    : PyException + (list (Z * Module) * list Warning) :=
  let '(modules, warnings) := st in
  let '(dir_name, entry) := d in
  match entry with
  | NotADirectory => inr (modules, warnings)
  | NoMetadataFile => inr (modules, warnings ++ [MissingMetadataFile dir_name])
  | _ =>
      match try_load modules dir_name entry with
      | inl e =>
          if is_Exception e then inr (modules, warnings ++ [ErrorLoading dir_name e])
          else inl e
      | inr (inl w) => inr (modules, warnings ++ [w])
      | inr (inr modules') => inr (modules', warnings)
      end
  end.

Fixpoint discover_loop (st : list (Z * Module) * list Warning)
    (module_dirs : list (string * DirEntry))
    : PyException + (list (Z * Module) * list Warning) :=
  match module_dirs with
  | [] => inr st
  | d :: module_dirs' =>
      match discover_step st d with
      | inl e => inl e
      | inr st' => discover_loop st' module_dirs'
      end
  end.

Definition discover_modules (module_dirs : list (string * DirEntry))
    : PyException + (list (Z * Module) * list Warning) :=
  match module_dirs with
  | [] => inl NoModulesFound
  | _ => discover_loop ([], []) module_dirs
  end.

(** ** main *)

Inductive PathState :=
  | PathMissing
  | PathNotDirectory
  | PathDirectory (module_dirs : list (string * DirEntry)).

(** How [generate_visualization] ends: the image is written, the [graphviz]
    package is missing ([ImportError]), or rendering raises another
    [Exception]. *)
Inductive VizOutcome := VizSaved | VizImportError | VizRaises.

(** The run of the script, which ends in [sys.exit(main())]: the status the
    process exits with, and the [all_errors] handed to
    [format_validation_report] when the report is reached. *)
Record Run := {
  exit_code : Z;
  report : option (list Finding)
}.

(** The four checks, in the order [main] runs them and extends [all_errors];
    [None] when cycle detection raises. *)
Definition run_checks (limit : nat) (ord : SetOrder) (modules : list (Z * Module))
    : option (list Finding) :=
  let all_errors := [] ++ validate_prerequisite_references modules in
  errors ← detect_cycles limit ord modules;
  let all_errors := all_errors ++ errors in
  errors ← detect_orphans modules;
  let all_errors := all_errors ++ errors in
  let all_errors := all_errors ++ validate_progression_rules modules in
  Some all_errors.

(** [main], from the frames the recursion limit leaves to [has_cycle], the
    state of the path argument, the [--visualize] flag and the way the
    visualization ends.  Every [Exception] that reaches the outer
    [except Exception] handler yields exit status 1; an exception that is no
    [Exception] leaves [main] and ends the interpreter with its own status; an
    [ImportError] of the visualization is handled where it is called and
    changes nothing. *)
Definition main (limit : nat) (ord : SetOrder) (path : PathState) (visualize : bool)
    (viz : VizOutcome) : Run :=
  match path with
  | PathMissing | PathNotDirectory => {| exit_code := 1; report := None |}
  | PathDirectory module_dirs =>
      match discover_modules module_dirs with
      | inl (InterpreterExit status) => {| exit_code := status; report := None |}
      | inl _ => {| exit_code := 1; report := None |}
      | inr ([], _) => {| exit_code := 1; report := None |}
      | inr (modules, _) =>
          match run_checks limit ord modules with
          | None => {| exit_code := 1; report := None |}
          | Some all_errors =>
              let status := if decide (length all_errors = 0%nat) then 0 else 1 in
              match visualize, viz with
              | true, VizRaises => {| exit_code := 1; report := Some all_errors |}
              | _, _ => {| exit_code := status; report := Some all_errors |}
              end
          end
      end
  end.

(** ** generate_visualization *)

(** The calls made on the [Digraph] before it is rendered, by the data their
    arguments are formatted from: [dot.node(str(module_id), label,
    fillcolor=color)], whose label holds the id, the Bloom level and the
    scaffolding level of the module, and
    [dot.edge(str(prereq_id), str(module_id))]. *)
Inductive DotCall :=
  | DotNode (module_id : Z) (label_bloom label_scaffolding : string) (fillcolor : string)
  | DotEdge (tail_name head_name : Z).

Definition colors : list (string * string) :=
  [("HIGH", "lightgreen"); ("MEDIUM", "lightyellow"); ("LOW", "lightcoral")]%string.

Fixpoint colors_get (d : list (string * string)) (k : string) : option string :=
  match d with
  | [] => None
  | (k', v) :: d' => if decide (k' = k) then Some v else colors_get d' k
  end.

(** [colors.get(module.get('scaffolding_level'), 'white')] *)
Definition fillcolor_of (module : Module) : string :=
  default "white"%string (s ← scaffolding_level module; colors_get colors s).

(** The first loop: one node for every module. *)
Definition add_nodes (modules : list (Z * Module)) : list DotCall :=
  (λ '(module_id, module),
     DotNode module_id (default "Unknown"%string (bloom_level module))
       (default "Unknown"%string (scaffolding_level module)) (fillcolor_of module))
  <$> modules.

(** The second loop: one edge for every listed prerequisite that is a key. *)
Definition add_edges (modules : list (Z * Module)) : list DotCall :=
  flat_map (λ '(module_id, module),
      flat_map (λ prereq_id,
          if dict_mem modules prereq_id then [DotEdge prereq_id module_id] else [])
        (prerequisites module))
    modules.

(** [generate_visualization] once [graphviz] is imported, up to the call of
    [dot.render]. *)
Definition generate_visualization (modules : list (Z * Module)) : list DotCall :=
  add_nodes modules ++ add_edges modules.

(** ** Vocabulary of the statements *)

(** [u] lists [w] as a prerequisite. *)
Definition depends_on (modules : list (Z * Module)) (u w : Z) : Prop :=
  ∃ m, dict_get modules u = Some m ∧ w ∈ prerequisites m.

Definition in_registry (modules : list (Z * Module)) (u : Z) : Prop :=
  is_Some (dict_get modules u).

(** The directed prerequisite graph over the ids of the registry. *)
Definition registry_edge (modules : list (Z * Module)) (u w : Z) : Prop :=
  depends_on modules u w ∧ in_registry modules w.

Definition on_cycle (modules : list (Z * Module)) (u : Z) : Prop :=
  tc (registry_edge modules) u u.

Definition acyclic (modules : list (Z * Module)) : Prop :=
  ∀ u, ¬ on_cycle modules u.

(** The modules a finding names as circular, orphaned. *)
Definition reported_circular (errors : list Finding) (mid : Z) : Prop :=
  ∃ t, CircularDependency mid t ∈ errors.

Definition reported_orphaned (errors : list Finding) (mid : Z) : Prop :=
  ∃ details foundation,
    UnreachableModules details foundation ∈ errors ∧ mid ∈ details.*1.

(** An edge of the adjacency dictionary the traversal walks. *)
Definition edge (graph : list (Z * list Z)) (u w : Z) : Prop := w ∈ neighbors graph u.

(** The prerequisite-satisfaction closure: the least set that holds a module
    as soon as it holds all of its prerequisites (so first of all the
    foundation modules, which have none). *)
Inductive satisfied (modules : list (Z * Module)) : Z → Prop :=
  | satisfied_intro mid m :
      dict_get modules mid = Some m →
      (∀ p, p ∈ prerequisites m → satisfied modules p) →
      satisfied modules mid.

Definition is_foundation (modules : list (Z * Module)) (mid : Z) : Prop :=
  ∃ m, dict_get modules mid = Some m ∧ prerequisites m = [].

(** Reachable from a foundation module by prerequisite hops. *)
Definition hop_reachable (modules : list (Z * Module)) (mid : Z) : Prop :=
  ∃ f, is_foundation modules f ∧ rtc (registry_edge modules) mid f.

(** The complexity index [c] and the support index [s] of a module, when its
    levels are of the fixed enumerations. *)
Definition complexity_index (m : Module) : option Z :=
  b ← bloom_level m; list_index b BLOOM_ORDER.

Definition support_index (m : Module) : option Z :=
  s ← scaffolding_level m; str_dict_get SCAFFOLDING_VALUE s.

Definition progression_reported (errors : list Finding) (M P : Z) : Prop :=
  ∃ t pb cb ps cs, ProgressionViolation M t pb cb ps cs P ∈ errors.

(** The registry in which every dangling prerequisite id (an id that is no
    key of the registry) is removed from each prerequisite list. *)
Definition prune_module (modules : list (Z * Module)) (m : Module) : Module :=
  {| title := title m; bloom_level := bloom_level m;
     scaffolding_level := scaffolding_level m;
     prerequisites := filter (in_registry modules) (prerequisites m) |}.

Definition prune_dangling (modules : list (Z * Module)) : list (Z * Module) :=
  (λ '(mid, m), (mid, prune_module modules m)) <$> modules.

(** The prerequisite chain of [u] leads into a cycle. *)
Definition leads_to_cycle (modules : list (Z * Module)) (u : Z) : Prop :=
  ∃ c, rtc (registry_edge modules) u c ∧ on_cycle modules c.

(** Every id the registry names: its keys and the ids of the prerequisite
    lists.  A traversal nests at most one call for each of them. *)
Definition graph_ids (modules : list (Z * Module)) : gset Z :=
  list_to_set (flat_map (λ d, d.1 :: prerequisites d.2) modules).

(** An iteration order under which the set built from [[8; 1; 0]] yields
    8, 1, 0 and the set built from [[1; 0]] yields 0, 1: sets of three or
    more ids in descending order, smaller ones in ascending order. *)
Definition collision_order : SetOrder.
Proof.
  refine {| set_iter := λ l,
              let s := merge_sort Z.le (remove_dups l) in
              if decide (3 ≤ length s)%nat then reverse s else s |}.
  - intros l x. simpl.
    assert (x ∈ merge_sort Z.le (remove_dups l) ↔ x ∈ l) as Helem
      by (rewrite merge_sort_Permutation; apply elem_of_remove_dups).
    case_decide; [by rewrite elem_of_reverse|done].
  - intros l. simpl.
    assert (NoDup (merge_sort Z.le (remove_dups l))) as Hnodup
      by (rewrite merge_sort_Permutation; apply NoDup_remove_dups).
    case_decide; [by rewrite reverse_Permutation|done].
Defined.

(** ** Vocabulary of the further properties *)

(** The first record of the sorted glob that declares the id. *)
Fixpoint first_declared (module_id : Z) (module_dirs : list (string * DirEntry))
    : option Module :=
  match module_dirs with
  | [] => None
  | (_, METADATA (Some id') metadata) :: ds =>
      if decide (id' = module_id) then Some metadata else first_declared module_id ds
  | _ :: ds => first_declared module_id ds
  end.



(** The finding for module [mid], with the title of its record. *)
Definition circular_finding_of (modules : list (Z * Module)) (mid : Z) (e : Finding) : Prop :=
  ∃ m, dict_get modules mid = Some m ∧ e = CircularDependency mid (get_title m).

(** The edge from a module to a prerequisite breaks the progression rule:
    the complexity index rises while the support index falls. *)
Definition violates_progression (mM mP : Module) : Prop :=
  ∃ cM cP sM sP,
    complexity_index mM = Some cM ∧ complexity_index mP = Some cP
    ∧ support_index mM = Some sM ∧ support_index mP = Some sP
    ∧ cM > cP ∧ sM < sP.

(** What the four checks accept: a non-empty registry in which every listed
    prerequisite is a key, no module is on a cycle and no edge breaks the
    progression rule. *)
Definition valid_graph (modules : list (Z * Module)) : Prop :=
  modules ≠ []
  ∧ (∀ M m P, (M, m) ∈ modules → P ∈ prerequisites m → in_registry modules P)
  ∧ acyclic modules
  ∧ (∀ M mM P mP, (M, mM) ∈ modules → P ∈ prerequisites mM →
       dict_get modules P = Some mP → ¬ violates_progression mM mP).

(** Every entry of every prerequisite list, in the order of the registry. *)
Definition listed_prerequisites (modules : list (Z * Module)) : list Z :=
  flat_map (λ d, prerequisites d.2) modules.

(** ** Invariants of the traversal *)

(** What a call on an unvisited node does to the two sets. *)
Definition frame_basic (graph : list (Z * list Z))
    (rec : Z → gset Z → gset Z → option (bool * gset Z * gset Z)) : Prop :=
  ∀ n V R b V' R',
    rec n V R = Some (b, V', R') → n ∉ V → R ⊆ V →
    {[n]} ∪ V ⊆ V' ∧ (∀ x, x ∈ V' → x ∈ V ∨ rtc (edge graph) n x) ∧ (b = false → R' = R).

(** A call that reports a cycle found one: under the invariant that every
    node of the recursion stack reaches the node being entered. *)
Definition frame_sound (graph : list (Z * list Z))
    (rec : Z → gset Z → gset Z → option (bool * gset Z * gset Z)) : Prop :=
  ∀ n V R V' R',
    rec n V R = Some (true, V', R') → n ∉ V → R ⊆ V →
    (∀ r, r ∈ R → rtc (edge graph) r n) →
    ∃ c, rtc (edge graph) n c ∧ tc (edge graph) c c.

(** A call returns when its bound covers the nodes of [U] not yet visited. *)
Definition frame_total (U : gset Z) (bound : nat)
    (rec : Z → gset Z → gset Z → option (bool * gset Z * gset Z)) : Prop :=
  ∀ n V R, n ∉ V → R ⊆ V → n ∈ U → (size (U ∖ V) ≤ bound)%nat → is_Some (rec n V R).

(** As long as no traversal reports a cycle, the nodes that are visited and
    off the recursion stack are closed under the edges and lie on no cycle.
    After a report a visited node may instead be in [T], the nodes some
    reported root reaches, and a cycle through a closed node lies in [T]. *)
Definition settled (graph : list (Z * list Z)) (T : Z → Prop) (V R : gset Z) : Prop :=
  ∀ u, u ∈ V → u ∉ R →
    T u ∨ ((∀ w, edge graph u w → w ∈ V ∧ w ∉ R) ∧ (tc (edge graph) u u → T u)).

Definition frame_complete (graph : list (Z * list Z)) (T : Z → Prop)
    (rec : Z → gset Z → gset Z → option (bool * gset Z * gset Z)) : Prop :=
  ∀ n V R V' R',
    rec n V R = Some (false, V', R') → n ∉ V → R ⊆ V →
    settled graph T V R → settled graph T V' R.

Definition circular_ids (errors : list Finding) : list Z :=
  omap (λ e, match e with CircularDependency mid _ => Some mid | _ => None end) errors.

(** The nodes a reported module reaches. *)
Definition tainted (graph : list (Z * list Z)) (errors : list Finding) (x : Z) : Prop :=
  ∃ r, r ∈ circular_ids errors ∧ rtc (edge graph) r x.

(** What [cycles_loop] appends for the module ids [ids]. *)
Definition circular_finding (graph : list (Z * list Z)) (modules : list (Z * Module))
    (ids : list Z) (e : Finding) : Prop :=
  ∃ mid m, e = CircularDependency mid (get_title m) ∧ mid ∈ ids
    ∧ dict_get modules mid = Some m
    ∧ ∃ c, rtc (edge graph) mid c ∧ tc (edge graph) c c.

(** ** Example inputs *)

Definition with_prereqs (ps : list Z) : Module :=
  {| title := None; bloom_level := None; scaffolding_level := None; prerequisites := ps |}.

Definition with_levels (bloom scaffolding : string) (ps : list Z) : Module :=
  {| title := None; bloom_level := Some bloom; scaffolding_level := Some scaffolding;
     prerequisites := ps |}.

(** Module 1 needs the foundation module 0 and module 2, which needs 1. *)
Definition registry_hop_cycle : list (Z * Module) :=
  [(0, with_prereqs []); (1, with_prereqs [0; 2]); (2, with_prereqs [1])].

(** Scenario 3 of the specification: module 2 names the absent module 99. *)
Definition registry_dangling : list (Z * Module) :=
  [(0, with_prereqs []); (1, with_prereqs []); (2, with_prereqs [99])].

(** Scenario 2 of the specification: modules 0 and 1 need each other. *)
Definition registry_two_cycle : list (Z * Module) :=
  [(0, with_prereqs [1]); (1, with_prereqs [0])].

(** Module 0 leads into the cycle of modules 1 and 2. *)
Definition registry_cycle_tail : list (Z * Module) :=
  [(0, with_prereqs [1]); (1, with_prereqs [2]); (2, with_prereqs [1])].

(** Scenario 5 of the specification. *)
Definition registry_harder_unsupported : list (Z * Module) :=
  [(0, with_levels "Remember" "HIGH" []); (1, with_levels "Create" "LOW" [0])].

(** Scenario 1 of the specification. *)
Definition registry_valid : list (Z * Module) :=
  [(0, with_levels "Remember" "HIGH" []); (1, with_levels "Apply" "HIGH" [0])].

(** The same registry, as two module directories. *)
Definition dirs_valid : list (string * DirEntry) :=
  [("module_00", METADATA (Some 0) (with_levels "Remember" "HIGH" []));
   ("module_01", METADATA (Some 1) (with_levels "Apply" "HIGH" [0]))]%string.

(** Two module directories whose metadata both declare id 0. *)
Definition dirs_duplicate_id : list (string * DirEntry) :=
  [("module_00", METADATA (Some 0) (with_levels "Remember" "HIGH" []));
   ("module_01", METADATA (Some 0) (with_levels "Apply" "HIGH" [0]))]%string.

(** Module 1 needs itself and the absent module 99. *)
Definition registry_self_dangling : list (Z * Module) :=
  [(0, with_prereqs []); (1, with_prereqs [1; 99])].

(** Modules 0 and 1 each need themselves; module 5 needs both and the
    absent module 8. *)
Definition registry_collision : list (Z * Module) :=
  [(5, with_prereqs [8; 1; 0]); (0, with_prereqs [0]); (1, with_prereqs [1])].





(** Module 0 is sound, module 1 leads into the cycle of modules 2 and 3. *)
Definition registry_late_cycle : list (Z * Module) :=
  [(0, with_prereqs []); (1, with_prereqs [2]); (2, with_prereqs [3]);
   (3, with_prereqs [2])].

(** ** Dictionaries *)

Lemma dict_get_Some_elem {V} (d : list (Z * V)) k v :
  dict_get d k = Some v → (k, v) ∈ d.
Proof.
  induction d as [|[k' v'] d IH]; simpl; [done|].
  case_decide; intros; simplify_eq; [left | right; auto].
Qed.

Lemma dict_get_is_Some {V} (d : list (Z * V)) k :
  is_Some (dict_get d k) ↔ k ∈ dict_keys d.
Proof.
  unfold dict_keys. induction d as [|[k' v'] d IH]; simpl.
  - split; [by intros [? ?] | by intros ?%elem_of_nil].
  - case_decide; subst; rewrite elem_of_cons.
    + split; eauto.
    + rewrite IH. naive_solver.
Qed.

Lemma dict_get_NoDup {V} (d : list (Z * V)) k v :
  NoDup (dict_keys d) → (k, v) ∈ d → dict_get d k = Some v.
Proof.
  unfold dict_keys. induction d as [|[k' v'] d IH]; simpl.
  - by intros _ ?%elem_of_nil.
  - intros [Hk Hd]%NoDup_cons [Heq|Hin]%elem_of_cons; simplify_eq.
    + by rewrite decide_True.
    + rewrite decide_False; [auto|].
      intros ->. apply Hk. apply list_elem_of_fmap. by exists (k, v).
Qed.

Lemma dict_get_fmap {V W} (f : V → W) (d : list (Z * V)) k :
  dict_get ((λ '(k, v), (k, f v)) <$> d) k = f <$> dict_get d k.
Proof.
  induction d as [|[k' v'] d IH]; simpl; [done|]. by case_decide.
Qed.

Lemma dict_keys_fmap {V W} (f : V → W) (d : list (Z * V)) :
  dict_keys ((λ '(k, v), (k, f v)) <$> d) = dict_keys d.
Proof.
  unfold dict_keys. induction d as [|[k' v'] d IH]; simpl; [done|]. by f_equal.
Qed.

Lemma dict_mem_true {V} (d : list (Z * V)) k :
  dict_mem d k = true ↔ k ∈ dict_keys d.
Proof. unfold dict_mem. rewrite bool_decide_eq_true. apply dict_get_is_Some. Qed.

(** ** The depth-first traversal *)

Section traversal.
Variable graph : list (Z * list Z).

Abbreviation step := (edge graph).
Abbreviation frame := (Z → gset Z → gset Z → option (bool * gset Z * gset Z)).

Lemma scan_neighbors_basic rec ns V R b V' R' :
  frame_basic graph rec →
  scan_neighbors rec ns V R = Some (b, V', R') → R ⊆ V →
  V ⊆ V' ∧ (∀ x, x ∈ V' → x ∈ V ∨ ∃ n, n ∈ ns ∧ rtc step n x)
  ∧ (b = false → R' = R ∧ ∀ n, n ∈ ns → n ∈ V' ∧ n ∉ R).
Proof.
  intros Hrec. revert V R. induction ns as [|n ns IH]; intros V R; simpl.
  - intros [= <- <- <-] _. split; [done|]. split; [auto|].
    intros _. split; [done|]. by intros ? ?%elem_of_nil.
  - case_decide as Hn.
    + destruct (rec n V R) as [[[[] V1] R1]|] eqn:Hcall; [| |done].
      * intros [= <- <- <-] HR.
        destruct (Hrec _ _ _ _ _ _ Hcall Hn HR) as (HV & Hreach & _).
        split; [set_solver|]. split; [|done].
        intros x Hx. destruct (Hreach x Hx); [by left|].
        right. exists n. split; [left|done].
      * intros Hscan HR.
        destruct (Hrec _ _ _ _ _ _ Hcall Hn HR) as (HV & Hreach & HR1).
        specialize (HR1 eq_refl) as ->.
        destruct (IH _ _ Hscan) as (HV' & Hreach' & Hfalse); [set_solver|].
        split; [set_solver|]. split.
        -- intros x Hx. destruct (Hreach' x Hx) as [Hx1|(m & Hm & Hmx)].
           ++ destruct (Hreach x Hx1); [by left|].
              right. exists n. split; [left|done].
           ++ right. exists m. split; [by right|done].
        -- intros ->. destruct (Hfalse eq_refl) as [-> Hns]. split; [done|].
           intros m [->|Hm]%elem_of_cons; [|by apply Hns].
           split; [set_solver|]. intros HmR. apply Hn. set_solver.
    + case_decide as HnR.
      * intros [= <- <- <-] HR. split; [done|]. split; [auto|done].
      * intros Hscan HR.
        destruct (IH _ _ Hscan HR) as (HV' & Hreach' & Hfalse).
        split; [done|]. split.
        -- intros x Hx. destruct (Hreach' x Hx) as [Hx1|(m & Hm & Hmx)]; [by left|].
           right. exists m. split; [by right|done].
        -- intros ->. destruct (Hfalse eq_refl) as [-> Hns]. split; [done|].
           intros m [->|Hm]%elem_of_cons; [|by apply Hns].
           split; [by apply HV'|done].
Qed.

Lemma has_cycle_basic limit : frame_basic graph (has_cycle graph limit).
Proof.
  induction limit as [|limit IH]; intros n V R b V' R'; simpl; [done|].
  destruct (scan_neighbors _ _ _ _) as [[[[] V1] R1]|] eqn:Hscan; [| |done].
  - intros [= <- <- <-] Hn HR.
    destruct (scan_neighbors_basic _ _ _ _ _ _ _ IH Hscan) as (HV & Hreach & _);
      [set_solver|].
    split; [done|]. split; [|done].
    intros x Hx. destruct (Hreach x Hx) as [Hx1|(m & Hm & Hmx)].
    + apply elem_of_union in Hx1 as [->%elem_of_singleton|]; [right; done|by left].
    + right. by eapply rtc_l.
  - case_decide as HnR1; [|done]. intros [= <- <- <-] Hn HR.
    destruct (scan_neighbors_basic _ _ _ _ _ _ _ IH Hscan) as (HV & Hreach & Hfalse);
      [set_solver|].
    destruct (Hfalse eq_refl) as [-> _].
    split; [done|]. split.
    + intros x Hx. destruct (Hreach x Hx) as [Hx1|(m & Hm & Hmx)].
      * apply elem_of_union in Hx1 as [->%elem_of_singleton|]; [right; done|by left].
      * right. by eapply rtc_l.
    + intros _. set_solver.
Qed.

Lemma scan_neighbors_sound rec node ns V R V' R' :
  frame_basic graph rec → frame_sound graph rec →
  scan_neighbors rec ns V R = Some (true, V', R') → R ⊆ V →
  (∀ n, n ∈ ns → step node n) →
  (∀ r, r ∈ R → rtc step r node) →
  ∃ c, rtc step node c ∧ tc step c c.
Proof.
  intros Hbasic Hrec. revert V R. induction ns as [|n ns IH]; intros V R; simpl; [done|].
  intros Hscan HR Hns Hstack.
  assert (step node n) as Hedge by (apply Hns; left).
  case_decide as Hn.
  - destruct (rec n V R) as [[[[] V1] R1]|] eqn:Hcall; [| |done].
    + destruct (Hrec _ _ _ _ _ Hcall Hn HR) as (c & Hc & Hcyc).
      { intros r Hr. eapply rtc_r; eauto. }
      exists c. split; [by eapply rtc_l|done].
    + destruct (Hbasic _ _ _ _ _ _ Hcall Hn HR) as (HV & _ & HR1).
      specialize (HR1 eq_refl) as ->.
      apply (IH _ _ Hscan); [set_solver| |done].
      intros m Hm. apply Hns. by right.
  - case_decide as HnR.
    + exists node. split; [done|].
      eapply tc_rtc_r; [by apply tc_once|by apply Hstack].
    + apply (IH _ _ Hscan HR); [|done]. intros m Hm. apply Hns. by right.
Qed.

Lemma has_cycle_sound limit : frame_sound graph (has_cycle graph limit).
Proof.
  induction limit as [|limit IH]; intros n V R V' R'; simpl; [done|].
  destruct (scan_neighbors _ _ _ _) as [[[[] V1] R1]|] eqn:Hscan; [| |done].
  - intros _ Hn HR Hstack.
    eapply (scan_neighbors_sound _ n); [apply has_cycle_basic|exact IH|exact Hscan|..].
    + set_solver.
    + done.
    + intros r [->%elem_of_singleton|Hr]%elem_of_union; [done|by apply Hstack].
  - by case_decide.
Qed.

(** A call that returns within a limit returns the same within a larger one. *)
Lemma scan_neighbors_mono (rec rec' : frame) ns V R res :
  (∀ n V1 R1 res1, rec n V1 R1 = Some res1 → rec' n V1 R1 = Some res1) →
  scan_neighbors rec ns V R = Some res → scan_neighbors rec' ns V R = Some res.
Proof.
  intros Hrec. revert V R. induction ns as [|n ns IH]; intros V R; simpl; [done|].
  case_decide; [|case_decide; [done|apply IH]].
  destruct (rec n V R) as [[[[] V1] R1]|] eqn:Hcall; [| |done];
    rewrite (Hrec _ _ _ _ Hcall); [done|apply IH].
Qed.

Lemma has_cycle_mono limit limit' n V R res :
  (limit ≤ limit')%nat →
  has_cycle graph limit n V R = Some res → has_cycle graph limit' n V R = Some res.
Proof.
  revert limit' n V R res. induction limit as [|limit IH]; intros limit' n V R res Hle;
    [done|].
  destruct limit' as [|limit']; [lia|]. simpl.
  destruct (scan_neighbors (has_cycle graph limit) _ _ _) as [r|] eqn:Hscan; [|done].
  rewrite (scan_neighbors_mono _ (has_cycle graph limit') _ _ _ _
             (λ n1 V1 R1 res1, IH limit' n1 V1 R1 res1 ltac:(lia)) Hscan).
  done.
Qed.

(** The traversal returns: [U] holds every node it can meet, and each call
    visits a node of [U] not visited before. *)
Section total.
Variable U : gset Z.
Hypothesis U_closed : ∀ u w, step u w → w ∈ U.

Lemma scan_neighbors_total bound rec ns V R :
  frame_basic graph rec → frame_total U bound rec →
  R ⊆ V → (∀ n, n ∈ ns → n ∈ U) → (size (U ∖ V) ≤ bound)%nat →
  is_Some (scan_neighbors rec ns V R).
Proof.
  intros Hbasic Hrec. revert V R. induction ns as [|n ns IH]; intros V R HR Hns Hsize; simpl.
  - by eexists.
  - case_decide as Hn.
    + destruct (Hrec n V R) as [[[b V1] R1] Hcall]; [done|done|apply Hns; left|done|].
      rewrite Hcall.
      destruct (Hbasic _ _ _ _ _ _ Hcall Hn HR) as (HV & _ & HR1).
      destruct b; [by eexists|]. specialize (HR1 eq_refl) as ->.
      apply IH; [set_solver|intros m Hm; apply Hns; by right|].
      etrans; [|exact Hsize]. apply subseteq_size. set_solver.
    + case_decide; [by eexists|].
      apply IH; [done|intros m Hm; apply Hns; by right|done].
Qed.

Lemma has_cycle_total limit : frame_total U limit (has_cycle graph limit).
Proof.
  induction limit as [|limit IH]; intros n V R Hn HR HnU Hsize.
  - exfalso. assert (size (U ∖ V) ≠ 0%nat); [|lia].
    apply size_non_empty_iff. set_solver.
  - simpl.
    assert (R ∪ {[n]} ⊆ {[n]} ∪ V) as HR1 by set_solver.
    assert (size (U ∖ ({[n]} ∪ V)) ≤ limit)%nat as Hsize1.
    { assert (size (U ∖ ({[n]} ∪ V)) < size (U ∖ V))%nat; [|lia].
      apply subset_size. set_solver. }
    destruct (scan_neighbors_total limit (has_cycle graph limit) (neighbors graph n)
                ({[n]} ∪ V) ({[n]} ∪ R)) as [[[b V1] R1] Hscan];
      [apply has_cycle_basic|exact IH|set_solver|intros m Hm; by eapply U_closed|done|].
    rewrite Hscan. destruct b; [by eexists|].
    destruct (scan_neighbors_basic _ _ _ _ _ _ _ (has_cycle_basic limit) Hscan)
      as (_ & _ & Hfalse); [set_solver|].
    destruct (Hfalse eq_refl) as [-> _].
    rewrite decide_True; [by eexists|set_solver].
Qed.
End total.

(** [settled] is kept by every call that returns [False]; [T] is closed
    under the edges. *)
Section settled.
Variable T : Z → Prop.
Hypothesis T_closed : ∀ x y, T x → step x y → T y.

Lemma T_closed_rtc x y : T x → rtc step x y → T y.
Proof. intros Hx Hxy. induction Hxy; eauto. Qed.

Lemma scan_neighbors_complete rec ns V R V' R' :
  frame_basic graph rec → frame_complete graph T rec →
  scan_neighbors rec ns V R = Some (false, V', R') → R ⊆ V →
  settled graph T V R → settled graph T V' R.
Proof.
  intros Hbasic Hrec. revert V R. induction ns as [|n ns IH]; intros V R; simpl.
  - by intros [= <- <-].
  - case_decide as Hn.
    + destruct (rec n V R) as [[[[] V1] R1]|] eqn:Hcall; [done| |done].
      intros Hscan HR Hset.
      destruct (Hbasic _ _ _ _ _ _ Hcall Hn HR) as (HV & _ & HR1).
      specialize (HR1 eq_refl) as ->.
      apply (IH _ _ Hscan); [set_solver|]. by eapply Hrec.
    + case_decide; [done|]. apply IH.
Qed.

Lemma has_cycle_complete limit : frame_complete graph T (has_cycle graph limit).
Proof.
  induction limit as [|limit IH]; intros n V R V' R'; simpl; [done|].
  destruct (scan_neighbors _ _ _ _) as [[[[] V1] R1]|] eqn:Hscan; [done| |done].
  case_decide as HnR1; [|done]. intros [= <- <-] Hn HR Hset.
  assert ({[n]} ∪ R ⊆ {[n]} ∪ V) as HR1 by set_solver.
  destruct (scan_neighbors_basic _ _ _ _ _ _ _ (has_cycle_basic limit) Hscan HR1)
    as (HV & _ & Hfalse).
  destruct (Hfalse eq_refl) as [-> Hns]. clear Hfalse.
  assert (settled graph T V1 ({[n]} ∪ R)) as Hset1.
  { eapply scan_neighbors_complete; [apply has_cycle_basic|exact IH|exact Hscan|done|].
    intros u Hu HuR.
    destruct (Hset u) as [HuT|[Hclosed Hcyc]]; [set_solver|set_solver|by left|].
    right. split; [|done]. intros w Hw. destruct (Hclosed w Hw). set_solver. }
  assert (∀ x, rtc step x n → x ∈ V1 → x ∉ {[n]} ∪ R → T n) as Hback.
  { intros x Hx. induction Hx as [x|x y z Hxy Hyz IHx]; [set_solver|].
    intros HxV HxR. destruct (Hset1 x HxV HxR) as [HxT|[Hclosed _]].
    - eapply T_closed_rtc; [exact HxT|]. by eapply rtc_l.
    - destruct (Hclosed y Hxy). by apply IHx. }
  intros u Hu HuR. destruct (decide (u = n)) as [->|Hne].
  - right. split.
    + intros w Hw. destruct (Hns w Hw). set_solver.
    + intros Hcyc. inversion Hcyc as [? ? Hstep|? w ? Hstep Hrest]; subst.
      * destruct (Hns n Hstep). set_solver.
      * destruct (Hns w Hstep). apply (Hback w); [by apply tc_rtc|done|done].
  - destruct (Hset1 u) as [HuT|[Hclosed Hcyc]]; [done|set_solver|by left|].
    right. split; [|done]. intros w Hw. destruct (Hclosed w Hw). set_solver.
Qed.
End settled.
End traversal.

(** ** The loop over the modules *)

Lemma circular_ids_app errors errors' :
  circular_ids (errors ++ errors') = circular_ids errors ++ circular_ids errors'.
Proof. apply omap_app. Qed.

Lemma elem_of_circular_ids errors mid :
  mid ∈ circular_ids errors ↔ reported_circular errors mid.
Proof.
  unfold circular_ids, reported_circular. rewrite list_elem_of_omap. split.
  - intros (e & He & Hmid). destruct e; simplify_eq. eauto.
  - intros (t & Ht). by exists (CircularDependency mid t).
Qed.

Lemma tainted_closed graph errors x y :
  tainted graph errors x → edge graph x y → tainted graph errors y.
Proof. intros (r & Hr & Hrx) Hxy. exists r. split; [done|]. by eapply rtc_r. Qed.

Lemma size_list_to_set_le (l : list Z) : (size (list_to_set l : gset Z) ≤ length l)%nat.
Proof.
  induction l as [|x l IH]; simpl.
  - by vm_compute.
  - rewrite size_union_alt, size_singleton.
    assert (size (list_to_set l ∖ {[x]} : gset Z) ≤ size (list_to_set l : gset Z))%nat.
    { apply subseteq_size. set_solver. }
    lia.
Qed.

Lemma cycles_loop_mono graph limit limit' modules ids :
  (limit ≤ limit')%nat →
  ∀ V errors res,
    cycles_loop graph limit modules ids V errors = Some res →
    cycles_loop graph limit' modules ids V errors = Some res.
Proof.
  intros Hle. induction ids as [|mid ids IH]; intros V errors res; cbn [cycles_loop]; [done|].
  case_decide; [|apply IH].
  destruct (has_cycle graph limit mid V ∅) as [[[b V1] R1]|] eqn:Hcall; [|done].
  rewrite (has_cycle_mono graph limit limit' _ _ _ _ Hle Hcall).
  destruct b; [|apply IH]. destruct (dict_get modules mid); simpl; [apply IH|done].
Qed.

Lemma cycles_loop_spec graph modules (U : gset Z) limit :
  (∀ u w, edge graph u w → w ∈ U) → (size U ≤ limit)%nat →
  ∀ ids V errors,
    (∀ mid, mid ∈ ids → mid ∈ U ∧ is_Some (dict_get modules mid)) →
    settled graph (tainted graph errors) V ∅ →
    ∃ errors' V',
      cycles_loop graph limit modules ids V errors = Some (errors ++ errors')
      ∧ Forall (circular_finding graph modules ids) errors'
      ∧ V ∪ list_to_set ids ⊆ V'
      ∧ settled graph (tainted graph (errors ++ errors')) V' ∅.
Proof.
  intros Hclosed Hfuel. induction ids as [|mid ids IH]; intros V errors Hids Hset.
  - exists [], V. rewrite app_nil_r. split; [done|]. split; [done|]. split; [set_solver|done].
  - assert (∀ mid', mid' ∈ ids → mid' ∈ U ∧ is_Some (dict_get modules mid')) as Hids'.
    { intros mid' Hmid'. apply Hids. by right. }
    assert (∀ errors', Forall (circular_finding graph modules ids) errors' →
              Forall (circular_finding graph modules (mid :: ids)) errors') as Hweaken.
    { intros errors' Hall. eapply Forall_impl; [exact Hall|].
      intros e (mid' & m & -> & Hin & Hm & Hc). exists mid', m.
      split; [done|]. split; [by right|done]. }
    cbn [cycles_loop]. case_decide as Hmid.
    + destruct (Hids mid) as [HmidU [m Hm]]; [left|].
      destruct (has_cycle_total graph U Hclosed limit mid V ∅) as [[[b V1] R1] Hcall];
        [done|set_solver|done| |].
      { etrans; [|exact Hfuel]. apply subseteq_size. set_solver. }
      rewrite Hcall.
      destruct (has_cycle_basic graph limit _ _ _ _ _ _ Hcall) as (HV & Hreach & HR);
        [done|set_solver|].
      destruct b.
      * rewrite Hm. simpl.
        destruct (has_cycle_sound graph limit _ _ _ _ _ Hcall) as (c & Hc & Hcyc);
          [done|set_solver|set_solver|].
        set (e := CircularDependency mid (get_title m)).
        destruct (IH V1 (errors ++ [e]) Hids') as (errors' & V' & Hloop & Hall & HV' & Hset').
        { assert (∀ x, tainted graph errors x → tainted graph (errors ++ [e]) x) as Hmono.
          { intros x (r & Hr & Hrx). exists r. split; [|done].
            rewrite circular_ids_app. apply elem_of_app. by left. }
          intros u Hu _. destruct (Hreach u Hu) as [HuV|Hmu].
          - destruct (Hset u) as [HuT|[Hcl Hcyc']]; [done|set_solver|left; by apply Hmono|].
            right. split; [|by intros ?%Hcyc'%Hmono].
            intros w Hw. destruct (Hcl w Hw). set_solver.
          - left. exists mid. split; [|done].
            rewrite circular_ids_app. apply elem_of_app. right. left. }
        exists (e :: errors'), V'. rewrite <-(assoc_L (++)) in Hloop, Hset'.
        split; [done|]. split; [|split; [clear -HV HV'; set_solver|done]].
        constructor; [|by apply Hweaken].
        exists mid, m. split; [done|]. split; [left|]. split; [done|]. eauto.
      * specialize (HR eq_refl) as ->.
        destruct (IH V1 errors Hids') as (errors' & V' & Hloop & Hall & HV' & Hset').
        { eapply has_cycle_complete; [apply tainted_closed|exact Hcall|done|set_solver|done]. }
        exists errors', V'. split; [done|]. split; [by apply Hweaken|].
        split; [clear -HV HV'; set_solver|done].
    + destruct (IH V errors Hids' Hset) as (errors' & V' & Hloop & Hall & HV & Hset').
      exists errors', V'. split; [done|]. split; [by eapply Hweaken|].
      split; [clear -HV Hmid; set_solver|done].
Qed.

(** ** From the adjacency dictionary back to the registry *)

Lemma tc_impl {A} (R1 R2 : relation A) x y :
  (∀ a b, R1 a b → R2 a b) → tc R1 x y → tc R2 x y.
Proof. intros Hsub Hxy. induction Hxy; [apply tc_once|eapply tc_l]; eauto. Qed.

Lemma edge_cycle_graph ord modules u w :
  edge (cycle_graph ord modules) u w ↔ depends_on modules u w.
Proof.
  unfold edge, neighbors, depends_on, cycle_graph.
  rewrite (dict_get_fmap (λ m, set_iter ord (prerequisites m))).
  destruct (dict_get modules u) as [m|]; simpl.
  - rewrite set_iter_elem. naive_solver.
  - split; [by intros ?%elem_of_nil|naive_solver].
Qed.

Lemma edge_graph_ids ord modules u w :
  edge (cycle_graph ord modules) u w → w ∈ graph_ids modules.
Proof.
  intros (m & Hm & Hw)%edge_cycle_graph.
  apply elem_of_list_to_set, list_elem_of_In, in_flat_map. exists (u, m).
  split; [by apply list_elem_of_In, dict_get_Some_elem|].
  right. by apply list_elem_of_In.
Qed.

Lemma key_graph_ids modules k : k ∈ dict_keys modules → k ∈ graph_ids modules.
Proof.
  unfold dict_keys. intros ([k' m] & -> & Hin)%list_elem_of_fmap.
  apply elem_of_list_to_set, list_elem_of_In, in_flat_map. exists (k', m).
  split; [by apply list_elem_of_In|by left].
Qed.

Lemma cycle_graph_keys ord modules : dict_keys (cycle_graph ord modules) = dict_keys modules.
Proof. apply (dict_keys_fmap (λ m, set_iter ord (prerequisites m))). Qed.

(** Within a limit of one call for every id the registry names,
    [detect_cycles] returns; what it returns, for every iteration order of
    the prerequisite sets. *)
Lemma detect_cycles_within_limit limit ord modules :
  (size (graph_ids modules) ≤ limit)%nat →
  ∃ errors,
    detect_cycles limit ord modules = Some errors
    ∧ Forall (λ e, ∃ mid m,
          e = CircularDependency mid (get_title m) ∧ dict_get modules mid = Some m
          ∧ ∃ c, rtc (depends_on modules) mid c ∧ tc (depends_on modules) c c) errors
    ∧ ∀ u, tc (depends_on modules) u u →
        ∃ r, reported_circular errors r ∧ rtc (depends_on modules) r u.
Proof.
  intros Hlimit. unfold detect_cycles. set (graph := cycle_graph ord modules).
  destruct (cycles_loop_spec graph modules (graph_ids modules) limit)
    with (ids := dict_keys graph) (V := ∅ : gset Z) (errors := @nil Finding)
    as (errors & V' & Hloop & Hall & HV & Hset).
  - intros u w Huw. by eapply edge_graph_ids.
  - done.
  - intros mid Hmid. unfold graph in Hmid. rewrite cycle_graph_keys in Hmid. split.
    + by apply key_graph_ids.
    + by apply dict_get_is_Some.
  - intros u Hu. set_solver.
  - exists errors. split; [done|]. split.
    + eapply Forall_impl; [exact Hall|].
      intros e (mid & m & -> & _ & Hm & c & Hc & Hcyc). exists mid, m.
      split; [done|]. split; [done|]. exists c. split.
      * eapply rtc_subrel; [|exact Hc]. intros a b. apply edge_cycle_graph.
      * eapply tc_impl; [|exact Hcyc]. intros a b. apply edge_cycle_graph.
    + intros u Hcyc.
      assert (tc (edge graph) u u) as Hcyc'.
      { eapply tc_impl; [|exact Hcyc]. intros a b. apply edge_cycle_graph. }
      assert (u ∈ dict_keys graph) as Hkey.
      { unfold graph. rewrite cycle_graph_keys. apply dict_get_is_Some.
        inversion Hcyc as [? ? (m & Hm & _)|? ? ? (m & Hm & _)]; by exists m. }
      assert (tainted graph errors u) as (r & Hr & Hru).
      { destruct (Hset u) as [?|[_ HT]]; [set_solver|set_solver|done|by apply HT]. }
      exists r. split.
      * by apply elem_of_circular_ids.
      * eapply rtc_subrel; [|exact Hru]. intros a b. apply edge_cycle_graph.
Qed.

(** A finding list that [detect_cycles] returns does not depend on the
    limit it was returned within. *)
Lemma detect_cycles_mono limit limit' ord modules errors :
  (limit ≤ limit')%nat →
  detect_cycles limit ord modules = Some errors →
  detect_cycles limit' ord modules = Some errors.
Proof. intros Hle. by apply cycles_loop_mono. Qed.

(** What a finding list that [detect_cycles] returns holds. *)
Lemma detect_cycles_spec limit ord modules errors :
  detect_cycles limit ord modules = Some errors →
  Forall (λ e, ∃ mid m,
      e = CircularDependency mid (get_title m) ∧ dict_get modules mid = Some m
      ∧ ∃ c, rtc (depends_on modules) mid c ∧ tc (depends_on modules) c c) errors
  ∧ ∀ u, tc (depends_on modules) u u →
      ∃ r, reported_circular errors r ∧ rtc (depends_on modules) r u.
Proof.
  intros Hrun.
  destruct (detect_cycles_within_limit (limit `max` size (graph_ids modules)) ord modules)
    as (errors' & Hrun' & Hspec); [lia|].
  apply (detect_cycles_mono limit (limit `max` size (graph_ids modules))) in Hrun; [|lia].
  rewrite Hrun in Hrun'. by simplify_eq.
Qed.

(** ** The reachability sweep *)

Section sweep.
Variable graph : list (Z * gset Z).
(** A property every module enjoys once its prerequisites all do. *)
Variable P : Z → Prop.
Hypothesis P_step : ∀ mid prereqs (s : gset Z),
  (mid, prereqs) ∈ graph → (∀ x, x ∈ s → P x) → prereqs ⊆ s → P mid.

Lemma sweep_fold_spec items (r0 : gset Z) c0 r' changed :
  items ⊆ graph →
  foldl sweep_step (r0, c0) items = (r', changed) →
  (∀ x, x ∈ r0 → P x) →
  r0 ⊆ r' ∧ r' ⊆ r0 ∪ list_to_set items.*1 ∧ (∀ x, x ∈ r' → P x)
  ∧ (changed = false →
       c0 = false ∧ r' = r0 ∧ ∀ mid prereqs, (mid, prereqs) ∈ items → mid ∈ r0 ∨ ¬ prereqs ⊆ r0)
  ∧ (changed = true → c0 = true ∨ ∃ mid, mid ∈ items.*1 ∧ mid ∈ r' ∧ mid ∉ r0).
Proof.
  revert r0 c0. induction items as [|[mid prereqs] items IH]; intros r0 c0 Hsub; simpl.
  - intros [= <- <-] HP. split; [done|]. split; [set_solver|]. split; [done|].
    split; [|by left]. intros ->. split; [done|]. split; [done|].
    by intros ? ? ?%elem_of_nil.
  - assert (items ⊆ graph) as Hsub' by (intros x Hx; apply Hsub; by right).
    assert ((mid, prereqs) ∈ graph) as Hin by (apply Hsub; left).
    case_decide as Hadd.
    + intros Hfold HP. destruct Hadd as [Hmid Hpre].
      destruct (IH _ _ Hsub' Hfold) as (Hr & Hr' & HP' & Hfalse & Htrue).
      { intros x [->%elem_of_singleton|Hx]%elem_of_union; [|by apply HP].
        by eapply P_step. }
      split; [clear -Hr; set_solver|]. split; [clear -Hr'; set_solver|].
      split; [done|]. split.
      * intros ->. by destruct (Hfalse eq_refl).
      * intros _. right. exists mid. split; [left|]. split; [clear -Hr; set_solver|done].
    + intros Hfold HP.
      destruct (IH _ _ Hsub' Hfold HP) as (Hr & Hr' & HP' & Hfalse & Htrue).
      split; [done|]. split; [clear -Hr'; set_solver|]. split; [done|]. split.
      * intros ->. destruct (Hfalse eq_refl) as (-> & -> & Hfix).
        split; [done|]. split; [done|].
        intros mid' prereqs' [[= -> ->]|Hin']%elem_of_cons; [|by apply Hfix].
        destruct (decide (mid ∈ r0)); [by left|right]. intros ?. apply Hadd. done.
      * intros ->. destruct (Htrue eq_refl) as [->|(mid' & Hmid' & ? & ?)]; [by left|].
        right. exists mid'. split; [by right|done].
Qed.

(** One pass: it only adds modules of the graph; when it leaves [changed]
    unset the set is closed under "all prerequisites reachable", and when it
    sets it the pass has added a module that was not reachable before. *)
Lemma sweep_pass_spec (r : gset Z) r' changed :
  sweep_pass graph r = (r', changed) →
  (∀ x, x ∈ r → P x) →
  r ⊆ r' ∧ r' ⊆ r ∪ list_to_set graph.*1 ∧ (∀ x, x ∈ r' → P x)
  ∧ (changed = false →
       r' = r ∧ ∀ mid prereqs, (mid, prereqs) ∈ graph → mid ∈ r ∨ ¬ prereqs ⊆ r)
  ∧ (changed = true → ∃ mid, mid ∈ graph.*1 ∧ mid ∈ r' ∧ mid ∉ r).
Proof.
  intros Hpass HP.
  destruct (sweep_fold_spec graph r false r' changed) as (Hr & Hr' & HP' & Hfalse & Htrue);
    [done|done|done|].
  split; [done|]. split; [done|]. split; [done|]. split.
  - intros Hc. by destruct (Hfalse Hc) as (_ & ? & ?).
  - intros Hc. by destruct (Htrue Hc).
Qed.

(** The loop ends within [size (keys ∖ reachable) + 1] passes, whatever the
    bound it is run with beyond that. *)
Lemma expand_reachable_spec fuel (r : gset Z) :
  (size (list_to_set graph.*1 ∖ r : gset Z) < fuel)%nat →
  (∀ x, x ∈ r → P x) →
  ∃ r' passes,
    expand_reachable graph fuel r = Some (r', passes)
    ∧ (1 ≤ passes ≤ size (list_to_set graph.*1 ∖ r : gset Z) + 1)%nat
    ∧ r ⊆ r' ∧ r' ⊆ r ∪ list_to_set graph.*1 ∧ (∀ x, x ∈ r' → P x)
    ∧ ∀ mid prereqs, (mid, prereqs) ∈ graph → mid ∈ r' ∨ ¬ prereqs ⊆ r'.
Proof.
  revert r. induction fuel as [|fuel IH]; intros r Hfuel HP; [lia|]. simpl.
  destruct (sweep_pass graph r) as [r1 changed] eqn:Hpass.
  destruct (sweep_pass_spec _ _ _ Hpass HP) as (Hr & Hr1 & HP1 & Hfalse & Htrue).
  destruct changed.
  - destruct (Htrue eq_refl) as (mid & Hmid & Hmid1 & Hmidr).
    assert (size (list_to_set graph.*1 ∖ r1 : gset Z)
            < size (list_to_set graph.*1 ∖ r : gset Z))%nat as Hlt.
    { apply subset_size.
      assert (mid ∈ (list_to_set graph.*1 : gset Z)) as HmidK
        by (by apply elem_of_list_to_set).
      clear -Hr HmidK Hmid1 Hmidr. set_solver. }
    destruct (IH r1) as (r' & passes & Hloop & Hpasses & Hr1' & Hr' & HP' & Hfix);
      [lia|done|].
    rewrite Hloop. simpl. exists r', (S passes). split; [done|]. split; [lia|].
    split; [clear -Hr Hr1'; set_solver|]. split; [clear -Hr1 Hr'; set_solver|done].
  - destruct (Hfalse eq_refl) as [-> Hfix].
    exists r, 1%nat. split; [done|]. split; [lia|]. split; [done|].
    split; [clear; set_solver|done].
Qed.
End sweep.

(** ** detect_orphans *)

Lemma elem_of_orphan_graph modules mid prereqs :
  (mid, prereqs) ∈ orphan_graph modules ↔
  ∃ m, (mid, m) ∈ modules ∧ prereqs = list_to_set (prerequisites m).
Proof.
  unfold orphan_graph. rewrite list_elem_of_fmap. split.
  - intros ([mid' m] & [= -> ->] & Hin). eauto.
  - intros (m & Hin & ->). by exists (mid, m).
Qed.

Lemma orphan_graph_keys modules : (orphan_graph modules).*1 = dict_keys modules.
Proof. apply (dict_keys_fmap (λ m, list_to_set (prerequisites m) : gset Z)). Qed.

Lemma list_to_set_empty_inv (l : list Z) : (list_to_set l : gset Z) = ∅ ↔ l = [].
Proof.
  split; [|by intros ->]. destruct l as [|x l]; [done|].
  intros Hempty. assert (x ∈ (∅ : gset Z)); [|set_solver].
  rewrite <-Hempty. set_solver.
Qed.

Lemma elem_of_foundation_of modules mid :
  mid ∈ foundation_of (orphan_graph modules) ↔
  ∃ m, (mid, m) ∈ modules ∧ prerequisites m = [].
Proof.
  unfold foundation_of. rewrite elem_of_list_to_set, list_elem_of_omap. split.
  - intros ([mid' prereqs] & Hin & Hsome). case_decide; simplify_eq.
    apply elem_of_orphan_graph in Hin as (m & Hin & Hm).
    exists m. split; [done|]. by apply list_to_set_empty_inv.
  - intros (m & Hin & Hm). exists (mid, list_to_set (prerequisites m)). split.
    + apply elem_of_orphan_graph. eauto.
    + rewrite Hm. simpl. by rewrite decide_True.
Qed.

Lemma elem_of_sorted (s : gset Z) x : x ∈ sorted s ↔ x ∈ s.
Proof. unfold sorted. by rewrite merge_sort_Permutation, elem_of_elements. Qed.

Lemma orphan_details_Some modules (ids : list Z) :
  (∀ mid, mid ∈ ids → mid ∈ dict_keys modules) →
  ∃ details,
    mapM (λ mid, m ← dict_get modules mid; Some (mid, get_title m)) ids = Some details
    ∧ details.*1 = ids.
Proof.
  induction ids as [|mid ids IH]; intros Hids.
  - by exists [].
  - destruct IH as (details & Hmap & Hfst); [intros ? ?; apply Hids; by right|].
    destruct (proj2 (dict_get_is_Some modules mid)) as [m Hm]; [apply Hids; left|].
    exists ((mid, get_title m) :: details). split.
    + cbn [mapM]. rewrite Hm. simpl. by rewrite Hmap.
    + rewrite fmap_cons. by rewrite Hfst.
Qed.

(** The two ways [detect_orphans] ends: without a foundation module, the one
    [NoFoundationModules] finding; with one, the modules of the registry that
    the sweep left outside the reachable set. *)
Lemma detect_orphans_shape modules :
  let graph := orphan_graph modules in
  (foundation_of graph = ∅ ∧ detect_orphans modules = Some [NoFoundationModules])
  ∨ (foundation_of graph ≠ ∅
     ∧ ∃ reachable passes errors,
         expand_reachable graph (S (length graph)) (foundation_of graph)
           = Some (reachable, passes)
         ∧ detect_orphans modules = Some errors
         ∧ (∀ e, e ∈ errors → ∃ details foundation, e = UnreachableModules details foundation)
         ∧ ∀ mid, reported_orphaned errors mid ↔ mid ∈ dict_keys modules ∧ mid ∉ reachable).
Proof.
  intros graph. unfold detect_orphans. fold graph.
  destruct (decide (foundation_of graph = ∅)) as [Hnone|Hsome]; [by left|right].
  split; [done|].
  destruct (expand_reachable_spec graph (λ _, True) (λ _ _ _ _ _ _, I)
              (S (length graph)) (foundation_of graph))
    as (reachable & passes & Hloop & _ & _ & _ & _ & _); [|done|].
  { assert (size (list_to_set graph.*1 ∖ foundation_of graph : gset Z)
            ≤ size (list_to_set graph.*1 : gset Z))%nat by (apply subseteq_size; set_solver).
    pose proof (size_list_to_set_le graph.*1) as Hle. rewrite length_fmap in Hle. lia. }
  rewrite Hloop. simpl.
  replace (dict_keys graph) with (dict_keys modules) by (symmetry; apply orphan_graph_keys).
  set (orphaned := list_to_set (dict_keys modules) ∖ reachable : gset Z).
  destruct (decide (orphaned = ∅)) as [Hempty|Hne].
  - exists reachable, passes, []. split; [done|]. split; [done|].
    split; [by intros ? ?%elem_of_nil|].
    intros mid. split.
    + by intros (? & ? & ?%elem_of_nil & _).
    + intros [Hkey Hmid]. assert (mid ∈ orphaned); [|set_solver].
      unfold orphaned. apply elem_of_difference. by rewrite elem_of_list_to_set.
  - destruct (orphan_details_Some modules (sorted orphaned)) as (details & Hmap & Hfst).
    { intros mid Hmid%elem_of_sorted. unfold orphaned in Hmid.
      apply elem_of_difference in Hmid as [Hmid _]. by apply elem_of_list_to_set in Hmid. }
    rewrite Hmap. simpl.
    exists reachable, passes, [UnreachableModules details (sorted (foundation_of graph))].
    split; [done|]. split; [done|]. split.
    { intros e ->%list_elem_of_singleton. eauto. }
    intros mid. unfold reported_orphaned. split.
    + intros (details' & foundation & [= -> ->]%list_elem_of_singleton & Hmid).
      rewrite Hfst in Hmid. apply elem_of_sorted in Hmid. unfold orphaned in Hmid.
      apply elem_of_difference in Hmid as [Hmid ?]. by apply elem_of_list_to_set in Hmid.
    + intros [Hkey Hmid]. exists details, (sorted (foundation_of graph)).
      split; [by apply list_elem_of_singleton|].
      rewrite Hfst. apply elem_of_sorted. unfold orphaned.
      apply elem_of_difference. by rewrite elem_of_list_to_set.
Qed.

(** With distinct keys the sweep ends on the prerequisite-satisfaction
    closure. *)
Lemma reachable_satisfied modules reachable passes :
  NoDup (dict_keys modules) →
  expand_reachable (orphan_graph modules) (S (length (orphan_graph modules)))
    (foundation_of (orphan_graph modules)) = Some (reachable, passes) →
  ∀ mid, mid ∈ reachable ↔ satisfied modules mid.
Proof.
  intros Hnodup Hloop. set (graph := orphan_graph modules) in *.
  destruct (expand_reachable_spec graph (satisfied modules)) with
    (fuel := S (length graph)) (r := foundation_of graph)
    as (r' & passes' & Hloop' & _ & _ & _ & Hsat & Hfix).
  - intros mid prereqs s (m & Hin & ->)%elem_of_orphan_graph Hs Hsub.
    apply (satisfied_intro _ mid m); [by apply dict_get_NoDup|].
    intros p Hp. apply Hs, Hsub. by apply elem_of_list_to_set.
  - assert (size (list_to_set graph.*1 ∖ foundation_of graph : gset Z)
            ≤ size (list_to_set graph.*1 : gset Z))%nat by (apply subseteq_size; set_solver).
    pose proof (size_list_to_set_le graph.*1) as Hle. rewrite length_fmap in Hle. lia.
  - intros x (m & Hin & Hm)%elem_of_foundation_of.
    apply (satisfied_intro _ x m); [by apply dict_get_NoDup|].
    rewrite Hm. by intros ? ?%elem_of_nil.
  - rewrite Hloop in Hloop'. injection Hloop' as <- <-.
    intros mid. split; [apply Hsat|].
    induction 1 as [mid m Hm _ IH].
    destruct (Hfix mid (list_to_set (prerequisites m))) as [?|Hnot]; [|done|].
    + apply elem_of_orphan_graph. exists m. split; [|done]. by apply dict_get_Some_elem.
    + destruct Hnot. intros p Hp%elem_of_list_to_set. by apply IH.
Qed.

Lemma satisfied_in_registry modules mid : satisfied modules mid → in_registry modules mid.
Proof. intros [? m Hm _]. by exists m. Qed.

Lemma satisfied_hop_reachable modules mid :
  satisfied modules mid → hop_reachable modules mid.
Proof.
  induction 1 as [mid m Hm Hsat IH].
  destruct (prerequisites m) as [|p ps] eqn:Hps.
  - exists mid. split; [by exists m|done].
  - destruct (IH p) as (f & Hf & Hpath); [left|].
    exists f. split; [done|]. eapply rtc_l; [|exact Hpath]. split.
    + exists m. split; [done|]. rewrite Hps. left.
    + apply satisfied_in_registry, Hsat. left.
Qed.

Lemma foundation_of_nonempty modules :
  foundation_of (orphan_graph modules) ≠ ∅ ↔ ∃ mid m, (mid, m) ∈ modules ∧ prerequisites m = [].
Proof.
  split.
  - intros [mid Hmid]%set_choose_L. apply elem_of_foundation_of in Hmid. eauto.
  - intros (mid & m & Hin & Hm) Hempty.
    assert (mid ∈ foundation_of (orphan_graph modules)) as Hmid
      by (apply elem_of_foundation_of; eauto).
    rewrite Hempty in Hmid. set_solver.
Qed.

(** Distinct keys, by evaluation. *)
Lemma NoDup_keys_decide (modules : list (Z * Module)) :
  bool_decide (NoDup (dict_keys modules)) = true → NoDup (dict_keys modules).
Proof. apply bool_decide_eq_true_1. Qed.

(** ** Claims about detect_orphans *)

(** With distinct ids and a foundation module, the modules reported as
    orphaned are those of the registry outside the closure. *)
Lemma orphans_are_unsatisfied_spec modules :
  NoDup (dict_keys modules) →
  (∃ f, is_foundation modules f) →
  ∃ errors,
    detect_orphans modules = Some errors
    ∧ (∀ mid, satisfied modules mid → ¬ reported_orphaned errors mid)
    ∧ (∀ mid, in_registry modules mid → ¬ satisfied modules mid →
         reported_orphaned errors mid).
Proof.
  intros Hnodup (f & m & Hf & Hm).
  destruct (detect_orphans_shape modules)
    as [[Hnone _]|(_ & reachable & passes & errors & Hloop & Hrun & _ & Hrep)].
  { exfalso. revert Hnone. apply foundation_of_nonempty.
    exists f, m. split; [by apply dict_get_Some_elem|done]. }
  pose proof (reachable_satisfied modules reachable passes Hnodup Hloop) as Hsat.
  exists errors. split; [done|]. split.
  - intros mid Hmid [_ Hnot]%Hrep. by apply Hnot, Hsat.
  - intros mid Hmid Hnot. apply Hrep. split; [by apply dict_get_is_Some|].
    by rewrite Hsat.
Qed.

(** C2 (as amended): with distinct ids and a non-empty foundation set, a
    module in the prerequisite-satisfaction closure is never reported as
    orphaned and every module of the registry outside the closure is; in
    particular every module that no chain of prerequisite hops links to a
    foundation module is reported. *)
Theorem orphans_are_the_unsatisfied modules :
  NoDup (dict_keys modules) →
  (∃ f, is_foundation modules f) →
  ∃ errors,
    detect_orphans modules = Some errors
    ∧ (∀ mid, satisfied modules mid → ¬ reported_orphaned errors mid)
    ∧ (∀ mid, in_registry modules mid → ¬ satisfied modules mid →
         reported_orphaned errors mid)
    ∧ (∀ mid, in_registry modules mid → ¬ hop_reachable modules mid →
         reported_orphaned errors mid).
Proof.
  intros Hnodup Hfound.
  destruct (orphans_are_unsatisfied_spec modules Hnodup Hfound)
    as (errors & Hrun & Hin & Hout).
  exists errors. split; [done|]. split; [done|]. split; [done|].
  intros mid Hmid Hnot. apply Hout; [done|].
  intros ?%satisfied_hop_reachable. by apply Hnot.
Qed.

Lemma orphans_are_the_unsatisfied_witness :
  ∃ errors,
    detect_orphans registry_dangling = Some errors
    ∧ (∀ mid, satisfied registry_dangling mid → ¬ reported_orphaned errors mid)
    ∧ (∀ mid, in_registry registry_dangling mid → ¬ satisfied registry_dangling mid →
         reported_orphaned errors mid)
    ∧ (∀ mid, in_registry registry_dangling mid → ¬ hop_reachable registry_dangling mid →
         reported_orphaned errors mid).
Proof.
  apply (orphans_are_the_unsatisfied registry_dangling).
  - apply NoDup_keys_decide. vm_compute. reflexivity.
  - exists 0, (with_prereqs []). split; reflexivity.
Defined.

(** C2 (as stated) fails: module 1 is one prerequisite hop away from the
    foundation module 0, and it is reported as orphaned, because its other
    prerequisite never becomes reachable. *)
Lemma hop_reachable_module_reported :
  is_foundation registry_hop_cycle 0
  ∧ hop_reachable registry_hop_cycle 1
  ∧ ∃ errors, detect_orphans registry_hop_cycle = Some errors
      ∧ reported_orphaned errors 1.
Proof.
  assert (is_foundation registry_hop_cycle 0) as Hf.
  { exists (with_prereqs []). split; reflexivity. }
  split; [done|]. split.
  - exists 0. split; [done|]. apply rtc_once. split.
    + exists (with_prereqs [0; 2]). split; [reflexivity|]. simpl. left.
    + by exists (with_prereqs []).
  - exists [UnreachableModules [(1, "Unknown"); (2, "Unknown")]%string [0]].
    split; [by vm_compute|].
    eexists _, _. split; [left|]. simpl. left.
Qed.

(** C7: when every module has a non-empty prerequisite list, orphan analysis
    returns exactly one finding, [NoFoundationModules]; in particular it
    names no module as orphaned. *)
Theorem no_foundation_single_finding modules :
  (∀ mid m, (mid, m) ∈ modules → prerequisites m ≠ []) →
  detect_orphans modules = Some [NoFoundationModules]
  ∧ ∀ mid, ¬ reported_orphaned [NoFoundationModules] mid.
Proof.
  intros Hall. split.
  - destruct (detect_orphans_shape modules) as [[_ Hrun]|[Hsome _]]; [done|].
    apply foundation_of_nonempty in Hsome as (mid & m & Hin & Hm).
    by destruct (Hall mid m Hin).
  - intros mid (details & foundation & Hin & _).
    by apply list_elem_of_singleton in Hin.
Qed.

Lemma no_foundation_single_finding_witness :
  detect_orphans registry_two_cycle = Some [NoFoundationModules]
  ∧ ∀ mid, ¬ reported_orphaned [NoFoundationModules] mid.
Proof.
  apply (no_foundation_single_finding registry_two_cycle).
  intros mid m Hin. unfold registry_two_cycle in Hin.
  apply elem_of_cons in Hin as [[= -> ->]|Hin]; [discriminate|].
  apply elem_of_cons in Hin as [[= -> ->]|Hin]; [discriminate|].
  by apply elem_of_nil in Hin.
Defined.

(** C10: a pass of the sweep that sets [changed] has added a module of the
    registry that was not reachable before, a pass that does not leaves the
    set as it was (and is the last one); so from any starting set the loop
    returns after at most [length modules + 1] passes, however many more
    passes it is allowed. *)
Theorem sweep_terminates modules (reachable : gset Z) (extra : nat) :
  let graph := orphan_graph modules in
  (∀ r r' changed, sweep_pass graph r = (r', changed) →
     if changed then r ⊆ r' ∧ ∃ mid, mid ∈ dict_keys modules ∧ (mid ∉ r) ∧ mid ∈ r'
     else r' = r)
  ∧ ∃ reachable' passes,
      expand_reachable graph (S (length graph) + extra) reachable
        = Some (reachable', passes)
      ∧ (passes ≤ length modules + 1)%nat.
Proof.
  intros graph. split.
  - intros r r' changed Hpass.
    destruct (sweep_pass_spec graph (λ _, True) (λ _ _ _ _ _ _, I) r r' changed Hpass)
      as (Hr & _ & _ & Hfalse & Htrue); [done|].
    destruct changed.
    + split; [done|]. destruct (Htrue eq_refl) as (mid & Hmid & ? & ?).
      exists mid. split; [|done]. unfold graph in Hmid. by rewrite orphan_graph_keys in Hmid.
    + by destruct (Hfalse eq_refl).
  - assert (length graph = length modules) as Hlen
      by (unfold graph, orphan_graph; apply length_fmap).
    assert (size (list_to_set graph.*1 ∖ reachable : gset Z) ≤ length modules)%nat as Hsize.
    { assert (size (list_to_set graph.*1 ∖ reachable : gset Z)
              ≤ size (list_to_set graph.*1 : gset Z))%nat
        by (apply subseteq_size; set_solver).
      pose proof (size_list_to_set_le graph.*1) as Hle.
      rewrite length_fmap in Hle. lia. }
    destruct (expand_reachable_spec graph (λ _, True) (λ _ _ _ _ _ _, I)
                (S (length graph) + extra) reachable)
      as (r' & passes & Hloop & Hpasses & _); [|done|].
    { lia. }
    exists r', passes. split; [done|]. lia.
Qed.

(** ** Claims about detect_cycles *)

Lemma depends_on_in_registry modules u w : depends_on modules u w → in_registry modules u.
Proof. intros (m & Hm & _). by exists m. Qed.

Lemma rtc_depends_in_registry modules x y :
  rtc (depends_on modules) x y → in_registry modules y → in_registry modules x.
Proof. intros [->|(z & Hxz & _)]%rtc_inv; [done|]. intros _. by eapply depends_on_in_registry. Qed.

Lemma rtc_depends_registry modules x y :
  rtc (depends_on modules) x y → in_registry modules y → rtc (registry_edge modules) x y.
Proof.
  induction 1 as [x|x z y Hxz Hzy IH]; [done|]. intros Hy.
  eapply rtc_l; [|by apply IH]. split; [done|]. by eapply rtc_depends_in_registry.
Qed.

Lemma tc_depends_registry modules x y :
  tc (depends_on modules) x y → in_registry modules y → tc (registry_edge modules) x y.
Proof.
  induction 1 as [x y Hxy|x z y Hxz Hzy IH]; intros Hy.
  - by apply tc_once.
  - eapply tc_l; [|by apply IH]. split; [done|].
    eapply rtc_depends_in_registry; [by apply tc_rtc|done].
Qed.

Lemma on_cycle_depends modules u : on_cycle modules u ↔ tc (depends_on modules) u u.
Proof.
  split.
  - apply tc_impl. by intros a b [? _].
  - intros Hcyc. apply tc_depends_registry; [done|].
    inversion Hcyc as [? ? Hstep|? ? ? Hstep _]; by eapply depends_on_in_registry.
Qed.

Lemma on_cycle_in_registry modules u : on_cycle modules u → in_registry modules u.
Proof.
  intros Hcyc%on_cycle_depends.
  inversion Hcyc as [? ? Hstep|? ? ? Hstep _]; by eapply depends_on_in_registry.
Qed.

(** A returned finding list in the vocabulary of the registry. *)
Lemma detect_cycles_registry limit ord modules errors :
  detect_cycles limit ord modules = Some errors →
  (∀ e, e ∈ errors → ∃ mid m,
        e = CircularDependency mid (get_title m) ∧ dict_get modules mid = Some m)
  ∧ (∀ mid, reported_circular errors mid →
        ∃ c, rtc (registry_edge modules) mid c ∧ on_cycle modules c)
  ∧ (∀ u, on_cycle modules u →
        ∃ r, reported_circular errors r ∧ rtc (registry_edge modules) r u).
Proof.
  intros (Hall & Hcomplete)%detect_cycles_spec.
  rewrite Forall_forall in Hall. split; [|split].
  - intros e He. destruct (Hall e He) as (mid & m & -> & Hm & _). eauto.
  - intros mid [t Ht]. destruct (Hall _ Ht) as (mid' & m & [= <- ->] & _ & c & Hc & Hcyc).
    apply on_cycle_depends in Hcyc. exists c. split; [|done].
    apply rtc_depends_registry; [done|]. by apply on_cycle_in_registry.
  - intros u Hu. destruct (Hcomplete u) as (r & Hr & Hru); [by apply on_cycle_depends|].
    exists r. split; [done|]. apply rtc_depends_registry; [done|].
    by apply on_cycle_in_registry.
Qed.

Lemma detect_cycles_nil_iff limit ord modules errors :
  detect_cycles limit ord modules = Some errors → errors = [] ↔ acyclic modules.
Proof.
  intros (Hshape & Hsound & Hcompl)%detect_cycles_registry. split.
  - intros -> u Hu. destruct (Hcompl u Hu) as (r & [t Ht] & _). by apply elem_of_nil in Ht.
  - intros Hacyc. destruct errors as [|e errors]; [done|].
    destruct (Hshape e) as (mid & m & -> & _); [left|].
    destruct (Hsound mid) as (c & _ & Hc); [eexists; left|]. by destruct (Hacyc c).
Qed.

(** C1 (as amended): a finding list that cycle detection returns is empty
    exactly when the prerequisite graph over the ids of the registry is
    acyclic; when the registry has a cycle (a self-reference included) some
    module is reported, and every reported module reaches, by zero or more
    prerequisite hops, a module that lies on a cycle. *)
Theorem cycle_findings_iff_cyclic limit ord modules errors :
  detect_cycles limit ord modules = Some errors →
  (errors = [] ↔ acyclic modules)
  ∧ ((∃ u, on_cycle modules u) → ∃ mid, reported_circular errors mid)
  ∧ (∀ mid, reported_circular errors mid →
       ∃ c, rtc (registry_edge modules) mid c ∧ on_cycle modules c).
Proof.
  intros Hrun. split; [by eapply detect_cycles_nil_iff|].
  apply detect_cycles_registry in Hrun as (_ & Hsound & Hcompl). split; [|done].
  intros (u & Hu). destruct (Hcompl u Hu) as (r & Hr & _). by exists r.
Qed.

Lemma cycle_findings_iff_cyclic_witness :
  ([CircularDependency 0 "Unknown"%string] = [] ↔ acyclic registry_cycle_tail)
  ∧ ((∃ u, on_cycle registry_cycle_tail u)
     → ∃ mid, reported_circular [CircularDependency 0 "Unknown"%string] mid)
  ∧ (∀ mid, reported_circular [CircularDependency 0 "Unknown"%string] mid →
       ∃ c, rtc (registry_edge registry_cycle_tail) mid c ∧ on_cycle registry_cycle_tail c).
Proof.
  apply (cycle_findings_iff_cyclic 1000 last_occurrence registry_cycle_tail).
  by vm_compute.
Defined.

(** A set built from a one-element list has one iteration order. *)
Lemma set_iter_singleton ord x : set_iter ord [x] = [x].
Proof.
  pose proof (set_iter_NoDup ord [x]) as Hnodup.
  pose proof (set_iter_elem ord [x]) as Helem.
  destruct (set_iter ord [x]) as [|y [|z l]].
  - exfalso. apply (elem_of_nil x), Helem. left.
  - f_equal. apply list_elem_of_singleton, Helem. left.
  - exfalso. assert (y = x) as -> by (apply list_elem_of_singleton, Helem; left).
    assert (z = x) as -> by (apply list_elem_of_singleton, Helem; right; left).
    apply NoDup_cons in Hnodup as [Hnotin _]. apply Hnotin. left.
Qed.

Lemma set_iter_nil ord : set_iter ord [] = [].
Proof.
  pose proof (set_iter_elem ord []) as Helem.
  destruct (set_iter ord []) as [|y l]; [done|].
  exfalso. apply (elem_of_nil y), Helem. left.
Qed.

(** C1 (as stated) fails: whatever the iteration order, and within every
    limit of three calls or more, the one module reported for this registry
    is module 0, the root of the traversal; modules 1 and 2 form the cycle and
    module 0 lies on none. *)
Lemma reported_module_off_cycle :
  (∀ limit ord, (3 ≤ limit)%nat →
     detect_cycles limit ord registry_cycle_tail
     = Some [CircularDependency 0 "Unknown"%string])
  ∧ on_cycle registry_cycle_tail 1
  ∧ ¬ on_cycle registry_cycle_tail 0.
Proof.
  split; [|split].
  - intros limit ord Hle. apply (detect_cycles_mono 3); [done|].
    unfold detect_cycles, cycle_graph, registry_cycle_tail. simpl.
    rewrite !set_iter_singleton. by vm_compute.
  - eapply tc_l; [|apply tc_once].
    + split; [exists (with_prereqs [2]); split; [reflexivity|simpl; left]|].
      by exists (with_prereqs [1]).
    + split; [exists (with_prereqs [1]); split; [reflexivity|simpl; left]|].
      by exists (with_prereqs [2]).
  - assert (∀ x y, tc (registry_edge registry_cycle_tail) x y → y ≠ 0) as Hno.
    { assert (∀ x y, registry_edge registry_cycle_tail x y → y ≠ 0) as Hedge.
      { intros x y [(m & Hm & Hy) _]. unfold registry_cycle_tail in Hm. simpl in Hm.
        repeat case_decide; simplify_eq; simpl in Hy; set_solver. }
      induction 1; eauto. }
    intros Hcyc. by apply (Hno 0 0).
Qed.

(** C5 (as amended): every module on a circular dependency chain is reached,
    by zero or more prerequisite hops, from a module that a returned finding
    list reports; the finding names the root of the traversal that met the
    cycle, one per traversal, and not each module of the cycle. *)
Theorem cyclic_modules_reached_from_reported limit ord modules errors :
  detect_cycles limit ord modules = Some errors →
  ∀ u, on_cycle modules u →
    ∃ r, reported_circular errors r ∧ rtc (registry_edge modules) r u.
Proof. by intros (_ & _ & Hcompl)%detect_cycles_registry. Qed.

Lemma cyclic_modules_reached_from_reported_witness :
  detect_cycles 1000 last_occurrence registry_two_cycle
  = Some [CircularDependency 0 "Unknown"%string]
  ∧ ∀ u, on_cycle registry_two_cycle u →
      ∃ r, reported_circular [CircularDependency 0 "Unknown"%string] r
           ∧ rtc (registry_edge registry_two_cycle) r u.
Proof.
  split; [by vm_compute|].
  apply (cyclic_modules_reached_from_reported 1000 last_occurrence registry_two_cycle).
  by vm_compute.
Defined.

(** C5 (as stated) fails: modules 0 and 1 need each other, both lie on the
    cycle, and whatever the iteration order, within every limit of two calls
    or more, only module 0 is reported. *)
Lemma cycle_member_not_reported :
  (∀ limit ord, (2 ≤ limit)%nat →
     detect_cycles limit ord registry_two_cycle
     = Some [CircularDependency 0 "Unknown"%string])
  ∧ on_cycle registry_two_cycle 1
  ∧ ¬ reported_circular [CircularDependency 0 "Unknown"%string] 1.
Proof.
  split; [|split].
  - intros limit ord Hle. apply (detect_cycles_mono 2); [done|].
    unfold detect_cycles, cycle_graph, registry_two_cycle. simpl.
    rewrite !set_iter_singleton. by vm_compute.
  - eapply tc_l; [|apply tc_once].
    + split; [exists (with_prereqs [0]); split; [reflexivity|simpl; left]|].
      by exists (with_prereqs [1]).
    + split; [exists (with_prereqs [1]); split; [reflexivity|simpl; left]|].
      by exists (with_prereqs [0]).
  - intros [t Ht]. by apply list_elem_of_singleton in Ht.
Qed.

(** Orphan detection returns, and names only modules of the registry. *)
Lemma detect_orphans_total modules :
  ∃ orphans,
    detect_orphans modules = Some orphans
    ∧ ∀ mid, reported_orphaned orphans mid → in_registry modules mid.
Proof.
  destruct (detect_orphans_shape modules)
    as [[_ Hrun]|(_ & reachable & passes & errors & _ & Hrun & _ & Hrep)].
  - exists [NoFoundationModules]. split; [done|].
    intros mid (? & ? & Hin & _). by apply list_elem_of_singleton in Hin.
  - exists errors. split; [done|].
    intros mid [Hkey _]%Hrep. by apply dict_get_is_Some.
Qed.

(** C9: every module id that a circular-dependency or an unreachable-modules
    finding of a returned list names is a key of the registry; an id that only
    occurs in prerequisite lists is never reported. *)
Theorem reported_ids_in_registry limit ord modules cycles orphans :
  detect_cycles limit ord modules = Some cycles →
  detect_orphans modules = Some orphans →
  (∀ mid, reported_circular cycles mid ∨ reported_orphaned orphans mid →
     in_registry modules mid)
  ∧ (∀ mid, ¬ in_registry modules mid →
       ¬ reported_circular cycles mid ∧ ¬ reported_orphaned orphans mid).
Proof.
  intros (Hshape & _)%detect_cycles_registry Horph.
  destruct (detect_orphans_total modules) as (orphans' & Horph' & Hkeys).
  assert (orphans' = orphans) as -> by congruence.
  assert (∀ mid, reported_circular cycles mid ∨ reported_orphaned orphans mid →
            in_registry modules mid) as Hin.
  { intros mid [[t Ht]|Hmid]; [|by apply Hkeys].
    destruct (Hshape _ Ht) as (mid' & m & [= <- _] & Hm). by exists m. }
  split; [done|].
  intros mid Hout. split; intros Hrep; apply Hout, Hin; auto.
Qed.

Lemma reported_ids_in_registry_witness :
  (∀ mid, reported_circular [CircularDependency 1 "Unknown"%string] mid
          ∨ reported_orphaned [UnreachableModules [(1, "Unknown"%string)] [0]] mid →
     in_registry registry_self_dangling mid)
  ∧ (∀ mid, ¬ in_registry registry_self_dangling mid →
       ¬ reported_circular [CircularDependency 1 "Unknown"%string] mid
       ∧ ¬ reported_orphaned [UnreachableModules [(1, "Unknown"%string)] [0]] mid).
Proof.
  apply (reported_ids_in_registry 1000 last_occurrence registry_self_dangling);
    by vm_compute.
Defined.

(** ** Claims about validate_progression_rules *)

Lemma elem_of_validate_progression_rules modules e :
  e ∈ validate_progression_rules modules ↔
  ∃ M mM P, (M, mM) ∈ modules ∧ P ∈ prerequisites mM
            ∧ e ∈ check_progression modules M mM P.
Proof.
  unfold validate_progression_rules. rewrite list_elem_of_In, in_flat_map. split.
  - intros ([M mM] & Hin & He). apply in_flat_map in He as (P & HP & He).
    exists M, mM, P. by rewrite !list_elem_of_In.
  - intros (M & mM & P & Hin & HP & He). exists (M, mM).
    split; [by apply list_elem_of_In|]. apply in_flat_map. exists P.
    by rewrite <-!list_elem_of_In.
Qed.

Lemma check_progression_spec modules M mM P :
  (∃ e, e ∈ check_progression modules M mM P) ↔
  ∃ mP cM cP sM sP,
    dict_get modules P = Some mP
    ∧ complexity_index mM = Some cM ∧ complexity_index mP = Some cP
    ∧ support_index mM = Some sM ∧ support_index mP = Some sP
    ∧ cM > cP ∧ sM < sP.
Proof.
  unfold check_progression, complexity_index, support_index.
  generalize BLOOM_ORDER SCAFFOLDING_VALUE. intros order values.
  destruct (dict_get modules P) as [mP|];
    [|split; [by intros [? ?%elem_of_nil]|by intros (? & ? & ? & ? & ? & ? & _)]].
  split.
  - intros [e He]. exists mP.
    destruct (bloom_level mM) as [cb|], (bloom_level mP) as [pb|];
      try (by apply elem_of_nil in He). simpl.
    destruct (list_index cb order) as [cM|], (list_index pb order) as [cP|];
      try (by apply elem_of_nil in He).
    destruct (scaffolding_level mM) as [cs|], (scaffolding_level mP) as [ps|];
      try (by apply elem_of_nil in He). simpl.
    destruct (str_dict_get values cs) as [sM|], (str_dict_get values ps) as [sP|];
      try (by apply elem_of_nil in He).
    case_decide as Hrule; [|by apply elem_of_nil in He].
    exists cM, cP, sM, sP. destruct Hrule. by repeat split.
  - intros (mP' & cM & cP & sM & sP & [= <-] & HcM & HcP & HsM & HsP & Hc & Hs).
    destruct (bloom_level mM) as [cb|], (bloom_level mP) as [pb|],
             (scaffolding_level mM) as [cs|], (scaffolding_level mP) as [ps|];
      simplify_eq/=.
    rewrite HcM, HcP, HsM, HsP. rewrite decide_True by done. eexists. left.
Qed.

Lemma check_progression_ids modules M mM P e :
  e ∈ check_progression modules M mM P →
  ∃ t pb cb ps cs, e = ProgressionViolation M t pb cb ps cs P.
Proof.
  unfold check_progression. intros He.
  repeat (case_match; try by apply elem_of_nil in He).
  apply list_elem_of_singleton in He. eauto 10.
Qed.

(** [validate_progression_rules] reports the edge from [M] to [P] exactly
    when the check of that edge yields a finding. *)
Lemma progression_reported_iff modules M P mM :
  NoDup (dict_keys modules) → dict_get modules M = Some mM → P ∈ prerequisites mM →
  progression_reported (validate_progression_rules modules) M P ↔
  ∃ e, e ∈ check_progression modules M mM P.
Proof.
  intros Hnodup HM HP. split.
  - intros (t & pb & cb & ps & cs & He).
    apply elem_of_validate_progression_rules in He as (M' & mM' & P' & Hin & _ & He).
    destruct (check_progression_ids _ _ _ _ _ He) as (? & ? & ? & ? & ? & [= <- _ _ _ _ _ <-]).
    apply (dict_get_NoDup _ _ _ Hnodup) in Hin. simplify_eq. eauto.
  - intros (e & He).
    destruct (check_progression_ids _ _ _ _ _ He) as (t & pb & cb & ps & cs & ->).
    exists t, pb, cb, ps, cs. apply elem_of_validate_progression_rules.
    exists M, mM, P. split; [by apply dict_get_Some_elem|done].
Qed.

(** C3: for an edge from module [M] to a prerequisite [P] of the registry,
    with all four levels in the enumerations a violation of the edge is
    reported exactly when [c(M) > c(P)] and [s(M) < s(P)] (so none when
    [c(M) = c(P)] or [s(M) >= s(P)]); with a level outside the enumerations
    none is reported. *)
Theorem progression_violation_iff modules M P mM mP :
  NoDup (dict_keys modules) →
  dict_get modules M = Some mM → P ∈ prerequisites mM → dict_get modules P = Some mP →
  let errors := validate_progression_rules modules in
  (∀ cM cP sM sP,
     complexity_index mM = Some cM → complexity_index mP = Some cP →
     support_index mM = Some sM → support_index mP = Some sP →
     (progression_reported errors M P ↔ cM > cP ∧ sM < sP)
     ∧ (cM = cP ∨ sM >= sP → ¬ progression_reported errors M P))
  ∧ (complexity_index mM = None ∨ complexity_index mP = None
     ∨ support_index mM = None ∨ support_index mP = None →
     ¬ progression_reported errors M P).
Proof.
  intros Hnodup HM HP HmP errors. unfold errors.
  pose proof (progression_reported_iff modules M P mM Hnodup HM HP) as Hiff.
  rewrite check_progression_spec in Hiff. split.
  - intros cM cP sM sP HcM HcP HsM HsP.
    assert (progression_reported (validate_progression_rules modules) M P
            ↔ cM > cP ∧ sM < sP) as Hrule.
    { rewrite Hiff. split.
      - intros (mP' & cM' & cP' & sM' & sP' & ? & ? & ? & ? & ? & ?). by simplify_eq.
      - intros [? ?]. by exists mP, cM, cP, sM, sP. }
    split; [done|]. intros Hok [? ?]%Hrule. lia.
  - intros Hnone (mP' & cM' & cP' & sM' & sP' & ? & ? & ? & ? & ? & ?)%Hiff.
    simplify_eq. naive_solver.
Qed.

Lemma progression_violation_iff_witness :
  let errors := validate_progression_rules registry_harder_unsupported in
  (∀ cM cP sM sP,
     complexity_index (with_levels "Create" "LOW" [0]) = Some cM →
     complexity_index (with_levels "Remember" "HIGH" []) = Some cP →
     support_index (with_levels "Create" "LOW" [0]) = Some sM →
     support_index (with_levels "Remember" "HIGH" []) = Some sP →
     (progression_reported errors 1 0 ↔ cM > cP ∧ sM < sP)
     ∧ (cM = cP ∨ sM >= sP → ¬ progression_reported errors 1 0))
  ∧ (complexity_index (with_levels "Create" "LOW" [0]) = None
     ∨ complexity_index (with_levels "Remember" "HIGH" []) = None
     ∨ support_index (with_levels "Create" "LOW" [0]) = None
     ∨ support_index (with_levels "Remember" "HIGH" []) = None →
     ¬ progression_reported errors 1 0).
Proof.
  apply (progression_violation_iff registry_harder_unsupported 1 0).
  - apply NoDup_keys_decide. vm_compute. reflexivity.
  - reflexivity.
  - simpl. left.
  - reflexivity.
Defined.

(** ** Claims about discover_modules and main *)

Lemma discover_step_keys st d st' :
  discover_step st d = inr st' → NoDup (dict_keys st.1) → NoDup (dict_keys st'.1).
Proof.
  destruct st as [modules warnings], d as [dir_name entry]. simpl.
  intros Hstep Hnodup.
  destruct entry as [| | | | | |[module_id|] metadata]; simpl in Hstep; simplify_eq; try done.
  destruct (dict_mem modules module_id) eqn:Hmem; simpl in Hstep; simplify_eq; [done|].
  simpl. unfold dict_keys. rewrite fmap_app. apply NoDup_app. split; [done|]. split.
  - intros k Hk [->|[]%elem_of_nil]%elem_of_cons.
    apply (proj2 (dict_mem_true modules _)) in Hk. simpl in Hk. congruence.
  - apply NoDup_singleton.
Qed.

Lemma discover_loop_NoDup module_dirs : ∀ st st',
  discover_loop st module_dirs = inr st' →
  NoDup (dict_keys st.1) → NoDup (dict_keys st'.1).
Proof.
  induction module_dirs as [|d ds IH]; intros st st'; simpl.
  - by intros [= <-].
  - destruct (discover_step st d) as [e|st1] eqn:Hstep; [done|].
    intros Hloop Hnodup. eapply IH; [exact Hloop|]. by eapply discover_step_keys.
Qed.

(** A registry that [discover_modules] returns has distinct ids. *)
Lemma discover_modules_NoDup module_dirs modules warnings :
  discover_modules module_dirs = inr (modules, warnings) → NoDup (dict_keys modules).
Proof.
  unfold discover_modules. destruct module_dirs as [|d ds]; [done|].
  intros Hrun. apply (discover_loop_NoDup _ _ _ Hrun). constructor.
Qed.




(** C6: on two records with the same id the construction of the registry
    does not fail: it returns a mapping that holds the first record, and the
    duplicate-id error survives only as a printed warning. *)
Theorem duplicate_id_is_swallowed :
  discover_modules dirs_duplicate_id
  = inr ([(0, with_levels "Remember" "HIGH" [])],
         [ErrorLoading "module_01" (DuplicateModuleID 0 "module_01")]).
Proof. reflexivity. Qed.


(** What [main] does on a loaded, non-empty registry. *)
Lemma main_loaded limit ord module_dirs modules warnings visualize viz :
  discover_modules module_dirs = inr (modules, warnings) → modules ≠ [] →
  main limit ord (PathDirectory module_dirs) visualize viz
  = match run_checks limit ord modules with
    | None => {| exit_code := 1; report := None |}
    | Some all_errors =>
        {| exit_code := match visualize, viz with
                        | true, VizRaises => 1
                        | _, _ => if decide (length all_errors = 0%nat) then 0 else 1
                        end;
           report := Some all_errors |}
    end.
Proof.
  intros Hload Hne. unfold main. rewrite Hload.
  destruct modules as [|entry modules]; [done|].
  destruct (run_checks limit ord (entry :: modules)) as [all_errors|]; [|done].
  by destruct visualize, viz.
Qed.




(** The visualization is run after the report, inside the outer [try]: on
    this registry no check finds anything, the report is given the empty
    list, and the exit status is 1 when the requested visualization raises
    an error other than [ImportError]. *)
Lemma valid_registry_failure_exit :
  discover_modules [("module_00"%string, METADATA (Some 0) (with_levels "Remember" "HIGH" []))]
    = inr ([(0, with_levels "Remember" "HIGH" [])], [])
  ∧ run_checks 1000 last_occurrence [(0, with_levels "Remember" "HIGH" [])] = Some []
  ∧ main 1000 last_occurrence
      (PathDirectory
         [("module_00"%string, METADATA (Some 0) (with_levels "Remember" "HIGH" []))])
      true VizRaises
    = {| exit_code := 1; report := Some [] |}.
Proof. split; [reflexivity|]. split; by vm_compute. Qed.

(** ** Dangling prerequisite ids *)

Lemma dict_get_prune modules n :
  dict_get (prune_dangling modules) n = prune_module modules <$> dict_get modules n.
Proof. apply (dict_get_fmap (prune_module modules)). Qed.

Lemma in_registry_prune modules k :
  in_registry (prune_dangling modules) k ↔ in_registry modules k.
Proof. unfold in_registry. rewrite dict_get_prune. apply fmap_is_Some. Qed.

(** Removing the dangling ids leaves the graph over the ids of the registry
    as it is. *)
Lemma registry_edge_prune modules u w :
  registry_edge (prune_dangling modules) u w ↔ registry_edge modules u w.
Proof.
  unfold registry_edge, depends_on. rewrite in_registry_prune, dict_get_prune. split.
  - intros [(m' & Hm' & Hw) Hkey]. split; [|done].
    destruct (dict_get modules u) as [m|]; simplify_eq/=.
    exists m. split; [done|]. by apply list_elem_of_filter in Hw as [_ ?].
  - intros [(m & Hm & Hw) Hkey]. split; [|done].
    exists (prune_module modules m). rewrite Hm. split; [done|].
    simpl. by apply list_elem_of_filter.
Qed.

Lemma rtc_registry_edge_prune modules u w :
  rtc (registry_edge (prune_dangling modules)) u w ↔ rtc (registry_edge modules) u w.
Proof.
  split; apply rtc_subrel; intros a b; apply registry_edge_prune.
Qed.

Lemma on_cycle_prune modules u : on_cycle (prune_dangling modules) u ↔ on_cycle modules u.
Proof.
  split; apply tc_impl; intros a b; apply registry_edge_prune.
Qed.

(** A module that names a dangling prerequisite is outside the
    prerequisite-satisfaction closure. *)
Lemma dangling_not_satisfied modules mid m d :
  dict_get modules mid = Some m → d ∈ prerequisites m → ¬ in_registry modules d →
  ¬ satisfied modules mid.
Proof.
  intros Hm Hd Hout Hsat. destruct Hsat as [mid m' Hm' Hall]. simplify_eq.
  by apply Hout, satisfied_in_registry, Hall.
Qed.

(** C4 (as amended): dangling prerequisite ids create and hide no cycle: a
    finding list that cycle detection returns on the registry and one it
    returns on the registry with the dangling ids removed are empty together,
    both report only modules whose prerequisite chain leads into a cycle of
    the graph over the ids of the registry, and both report, for every module
    on such a cycle, a module that reaches it; which modules they name can
    differ with the iteration order of the prerequisite sets.  Orphan analysis
    does not remove dangling ids: with distinct ids and a non-empty foundation
    set, every module that names a dangling prerequisite is reported as
    orphaned. *)
Theorem dangling_ids_in_graph_analysis limit limit' ord ord' modules errors errors' :
  detect_cycles limit ord modules = Some errors →
  detect_cycles limit' ord' (prune_dangling modules) = Some errors' →
  (errors = [] ↔ errors' = [])
  ∧ (∀ mid, reported_circular errors mid ∨ reported_circular errors' mid →
       leads_to_cycle modules mid)
  ∧ (∀ u, on_cycle modules u →
       (∃ r, reported_circular errors r ∧ rtc (registry_edge modules) r u)
       ∧ (∃ r, reported_circular errors' r ∧ rtc (registry_edge modules) r u))
  ∧ (NoDup (dict_keys modules) → (∃ f, is_foundation modules f) →
     ∃ orphans,
       detect_orphans modules = Some orphans
       ∧ ∀ mid m d,
           dict_get modules mid = Some m → d ∈ prerequisites m →
           ¬ in_registry modules d → reported_orphaned orphans mid).
Proof.
  intros Hrun Hrun'.
  pose proof (detect_cycles_nil_iff _ _ _ _ Hrun) as Hnil.
  pose proof (detect_cycles_nil_iff _ _ _ _ Hrun') as Hnil'.
  apply detect_cycles_registry in Hrun as (_ & Hsound & Hcompl).
  apply detect_cycles_registry in Hrun' as (_ & Hsound' & Hcompl').
  split; [|split; [|split]].
  - rewrite Hnil, Hnil'. unfold acyclic. by setoid_rewrite on_cycle_prune.
  - intros mid [Hmid|Hmid]; [by apply Hsound|].
    destruct (Hsound' mid Hmid) as (c & Hc & Hcyc). exists c.
    split; [by apply rtc_registry_edge_prune|by apply on_cycle_prune].
  - intros u Hu. split; [by apply Hcompl|].
    destruct (Hcompl' u) as (r & Hr & Hru); [by apply on_cycle_prune|].
    exists r. split; [done|]. by apply rtc_registry_edge_prune.
  - intros Hnodup Hfound.
    destruct (orphans_are_unsatisfied_spec modules Hnodup Hfound)
      as (orphans & Horph & _ & Hout).
    exists orphans. split; [done|]. intros mid m d Hm Hd Hdangling.
    apply Hout; [by exists m|]. by eapply dangling_not_satisfied.
Qed.

Lemma dangling_ids_in_graph_analysis_witness :
  ([CircularDependency 5 "Unknown"%string; CircularDependency 0 "Unknown"%string] = []
   ↔ [CircularDependency 5 "Unknown"%string; CircularDependency 1 "Unknown"%string] = [])
  ∧ (∀ mid,
       reported_circular
         [CircularDependency 5 "Unknown"%string; CircularDependency 0 "Unknown"%string] mid
       ∨ reported_circular
           [CircularDependency 5 "Unknown"%string; CircularDependency 1 "Unknown"%string] mid →
       leads_to_cycle registry_collision mid)
  ∧ (∀ u, on_cycle registry_collision u →
       (∃ r, reported_circular
               [CircularDependency 5 "Unknown"%string; CircularDependency 0 "Unknown"%string] r
             ∧ rtc (registry_edge registry_collision) r u)
       ∧ (∃ r, reported_circular
                 [CircularDependency 5 "Unknown"%string; CircularDependency 1 "Unknown"%string] r
               ∧ rtc (registry_edge registry_collision) r u))
  ∧ (NoDup (dict_keys registry_collision) → (∃ f, is_foundation registry_collision f) →
     ∃ orphans,
       detect_orphans registry_collision = Some orphans
       ∧ ∀ mid m d,
           dict_get registry_collision mid = Some m → d ∈ prerequisites m →
           ¬ in_registry registry_collision d → reported_orphaned orphans mid).
Proof.
  apply (dangling_ids_in_graph_analysis 1000 1000 collision_order collision_order
           registry_collision); by vm_compute.
Defined.

(** The findings of cycle detection themselves can change when the dangling
    ids are removed: the set of module 5 is iterated 8, 1, 0 and, without the
    absent module 8, in the order 0, 1 (as by an interpreter whose hash table
    stores 0 behind 8 and 1, with which it collides); the traversal from
    module 5 then meets the self-reference of module 1 first, or that of
    module 0, and the outer loop reports the other one. *)
Lemma dangling_id_changes_cycle_findings :
  set_iter collision_order [8; 1; 0] = [8; 1; 0]
  ∧ set_iter collision_order [1; 0] = [0; 1]
  ∧ detect_cycles 1000 collision_order registry_collision
    = Some [CircularDependency 5 "Unknown"%string; CircularDependency 0 "Unknown"%string]
  ∧ detect_cycles 1000 collision_order (prune_dangling registry_collision)
    = Some [CircularDependency 5 "Unknown"%string; CircularDependency 1 "Unknown"%string].
Proof. repeat split; by vm_compute. Qed.

(** C4 (as stated) fails: module 2 names the absent module 99 and orphan
    analysis reports it as unreachable; with 99 removed from its
    prerequisites module 2 is a foundation module and nothing is reported. *)
Lemma dangling_id_changes_orphans :
  detect_orphans registry_dangling
    = Some [UnreachableModules [(2, "Unknown"%string)] [0; 1]]
  ∧ detect_orphans (prune_dangling registry_dangling) = Some [].
Proof. split; by vm_compute. Qed.

(** ** Further properties: validate_prerequisite_references *)

Lemma elem_of_validate_prerequisite_references modules e :
  e ∈ validate_prerequisite_references modules ↔
  ∃ M m P, (M, m) ∈ modules ∧ P ∈ prerequisites m ∧ ¬ in_registry modules P
           ∧ e = DanglingPrerequisite M (get_title m) P.
Proof.
  unfold validate_prerequisite_references. rewrite list_elem_of_In, in_flat_map. split.
  - intros ([M m] & Hin & He). apply in_flat_map in He as (P & HP & He).
    exists M, m, P. rewrite !list_elem_of_In. split; [done|]. split; [done|].
    destruct (dict_mem modules P) eqn:Hmem; [by destruct He|].
    destruct He as [<-|[]]. split; [|done].
    intros Hkey%dict_get_is_Some%dict_mem_true. congruence.
  - intros (M & m & P & Hin & HP & Hout & ->). exists (M, m).
    split; [by apply list_elem_of_In|]. apply in_flat_map. exists P.
    split; [by apply list_elem_of_In|].
    destruct (dict_mem modules P) eqn:Hmem; [|by left].
    destruct Hout. by apply dict_get_is_Some, dict_mem_true.
Qed.

Lemma validate_prerequisite_references_nil modules :
  validate_prerequisite_references modules = [] ↔
  ∀ M m P, (M, m) ∈ modules → P ∈ prerequisites m → in_registry modules P.
Proof.
  split.
  - intros Hnil M m P Hin HP.
    destruct (decide (in_registry modules P)) as [|Hout]; [done|].
    assert (DanglingPrerequisite M (get_title m) P
            ∈ validate_prerequisite_references modules) as He.
    { apply elem_of_validate_prerequisite_references. by exists M, m, P. }
    rewrite Hnil in He. by apply elem_of_nil in He.
  - intros Hall. destruct (validate_prerequisite_references modules) as [|e l] eqn:He;
      [done|].
    assert (e ∈ validate_prerequisite_references modules) as Hin
      by (rewrite He; left).
    apply elem_of_validate_prerequisite_references
      in Hin as (M & m & P & Hin & HP & Hout & _).
    destruct Hout. by eapply Hall.
Qed.

(** X1: reference validation reports [(M, P)] exactly when a record of
    module [M] lists [P] and [P] is no key of the registry, with the title
    of [M]; it returns no finding exactly when every listed prerequisite is a
    key. *)
Theorem dangling_reported_iff modules :
  (∀ M t P, DanglingPrerequisite M t P ∈ validate_prerequisite_references modules ↔
     ∃ m, (M, m) ∈ modules ∧ P ∈ prerequisites m ∧ ¬ in_registry modules P
          ∧ t = get_title m)
  ∧ (validate_prerequisite_references modules = [] ↔
     ∀ M m P, (M, m) ∈ modules → P ∈ prerequisites m → in_registry modules P).
Proof.
  split.
  - intros M t P. rewrite elem_of_validate_prerequisite_references. split.
    + intros (M' & m & P' & Hin & HP & Hout & [= -> -> ->]). eauto.
    + intros (m & Hin & HP & Hout & ->). by exists M, m, P.
  - apply validate_prerequisite_references_nil.
Qed.

(** ** Further properties: discover_modules *)

Lemma discover_loop_first ds : ∀ modules warnings modules' warnings',
  NoDup (dict_keys modules) →
  discover_loop (modules, warnings) ds = inr (modules', warnings') →
  ∀ module_id,
    dict_get modules' module_id
    = match dict_get modules module_id with
      | Some m => Some m
      | None => first_declared module_id ds
      end.
Proof.
  induction ds as [|[dir_name entry] ds IH];
    intros modules warnings modules' warnings' Hnodup Hloop module_id.
  - simpl in Hloop. simplify_eq. by destruct (dict_get modules' module_id).
  - cbn [discover_loop] in Hloop.
    destruct (discover_step (modules, warnings) (dir_name, entry))
      as [e|[modules1 warnings1]] eqn:Hstep; [done|].
    pose proof (discover_step_keys _ _ _ Hstep Hnodup) as Hnodup1. simpl in Hnodup1.
    rewrite (IH _ _ _ _ Hnodup1 Hloop module_id). clear IH Hloop.
    destruct entry as [| | | | | |[id'|] metadata]; simpl in Hstep; simplify_eq; try done.
    destruct (dict_mem modules id') eqn:Hmem; simpl in Hstep; simplify_eq.
    + cbn [first_declared]. case_decide as Hid; [|done]. subst id'.
      apply dict_mem_true, dict_get_is_Some in Hmem as [m Hm]. by rewrite Hm.
    + cbn [first_declared].
      assert (∀ k, dict_get (modules ++ [(id', metadata)]) k
                   = match dict_get modules k with
                     | Some m => Some m
                     | None => if decide (id' = k) then Some metadata else None
                     end) as Happ.
      { intros k. clear. induction modules as [|[k' v'] modules IHm]; simpl.
        - by destruct (decide (id' = k)).
        - destruct (decide (k' = k)); [done|apply IHm]. }
      rewrite Happ. destruct (dict_get modules module_id); [done|].
      by case_decide.
Qed.



(** X2: a registry that [discover_modules] returns has distinct ids, and for
    every id it holds the first record of the sorted glob that declares the
    id: later records with the same id are dropped. *)
Theorem discovered_registry_first_wins module_dirs modules warnings :
  discover_modules module_dirs = inr (modules, warnings) →
  NoDup (dict_keys modules)
  ∧ ∀ module_id, dict_get modules module_id = first_declared module_id module_dirs.
Proof.
  intros Hrun. split; [by eapply discover_modules_NoDup|].
  unfold discover_modules in Hrun. destruct module_dirs as [|d ds]; [done|].
  intros module_id.
  assert (NoDup (dict_keys (@nil (Z * Module)))) as Hnil by constructor.
  by rewrite (discover_loop_first _ _ _ _ _ Hnil Hrun module_id).
Qed.

Lemma discovered_registry_first_wins_witness :
  NoDup (dict_keys [(0, with_levels "Remember" "HIGH" [])])
  ∧ ∀ module_id,
      dict_get [(0, with_levels "Remember" "HIGH" [])] module_id
      = first_declared module_id dirs_duplicate_id.
Proof.
  apply (discovered_registry_first_wins dirs_duplicate_id _
           [ErrorLoading "module_01" (DuplicateModuleID 0 "module_01")]).
  reflexivity.
Defined.



(** ** Further properties: detect_cycles *)

(** The loop appends, in the order of [ids], one finding for some of them. *)
Lemma cycles_loop_order graph fuel modules ids : ∀ V errors res,
  cycles_loop graph fuel modules ids V errors = Some res →
  ∃ reported errors',
    res = errors ++ errors'
    ∧ reported `sublist_of` ids
    ∧ Forall2 (circular_finding_of modules) reported errors'.
Proof.
  induction ids as [|mid ids IH]; intros V errors res; cbn [cycles_loop].
  - intros [= <-]. exists [], []. rewrite app_nil_r. split; [done|]. split; constructor.
  - case_decide as Hmid.
    + destruct (has_cycle graph fuel mid V ∅) as [[[[] V1] R1]|]; [| |done].
      * destruct (dict_get modules mid) as [m|] eqn:Hm; simpl; [|done].
        intros (reported & errors' & -> & Hsub & Hall)%IH.
        exists (mid :: reported), (CircularDependency mid (get_title m) :: errors').
        rewrite <-(assoc_L (++)). split; [done|]. split; [by apply sublist_skip|].
        constructor; [by exists m|done].
      * intros (reported & errors' & -> & Hsub & Hall)%IH.
        exists reported, errors'. split; [done|]. split; [by apply sublist_cons|done].
    + intros (reported & errors' & -> & Hsub & Hall)%IH.
      exists reported, errors'. split; [done|]. split; [by apply sublist_cons|done].
Qed.

(** X4: a finding list that cycle detection returns names modules in the
    order of the registry, each key at most once, and every finding carries
    the title of the module it names (["Unknown"] when the record has none). *)
Theorem cycle_findings_in_registry_order limit ord modules errors :
  detect_cycles limit ord modules = Some errors →
  ∃ reported,
    reported `sublist_of` dict_keys modules
    ∧ Forall2 (circular_finding_of modules) reported errors
    ∧ (NoDup (dict_keys modules) → NoDup reported).
Proof.
  unfold detect_cycles. intros Hloop.
  apply cycles_loop_order in Hloop as (reported & errors' & -> & Hsub & Hall).
  rewrite cycle_graph_keys in Hsub.
  exists reported. split; [done|]. split; [done|].
  intros Hnodup. by eapply sublist_NoDup.
Qed.

Lemma cycle_findings_in_registry_order_witness :
  ∃ reported,
    reported `sublist_of` dict_keys registry_collision
    ∧ Forall2 (circular_finding_of registry_collision) reported
        [CircularDependency 5 "Unknown"%string; CircularDependency 0 "Unknown"%string]
    ∧ (NoDup (dict_keys registry_collision) → NoDup reported).
Proof.
  apply (cycle_findings_in_registry_order 1000 last_occurrence registry_collision).
  vm_compute. reflexivity.
Defined.

(** Before any report, no visited node leads into a cycle. *)
Lemma settled_no_cycle graph (V : gset Z) u :
  settled graph (λ _, False) V ∅ → u ∈ V →
  ¬ ∃ c, rtc (edge graph) u c ∧ tc (edge graph) c c.
Proof.
  intros Hset Hu (c & Huc & Hc).
  assert (c ∈ V) as HcV.
  { clear Hc. induction Huc as [|x y z Hxy _ IH]; [done|]. apply IH.
    destruct (Hset x Hu) as [[]|[Hclosed _]]; [set_solver|]. by apply Hclosed. }
  destruct (Hset c HcV) as [[]|[_ Hacyc]]; [set_solver|]. by apply Hacyc.
Qed.

Lemma cycles_loop_first graph fuel modules ids : ∀ V e rest,
  settled graph (λ _, False) V ∅ →
  cycles_loop graph fuel modules ids V [] = Some (e :: rest) →
  ∃ r before after,
    circular_finding_of modules r e
    ∧ ids = before ++ r :: after
    ∧ (∀ x, x ∈ before → ¬ ∃ c, rtc (edge graph) x c ∧ tc (edge graph) c c)
    ∧ ∃ c, rtc (edge graph) r c ∧ tc (edge graph) c c.
Proof.
  induction ids as [|mid ids IH]; intros V e rest Hset; cbn [cycles_loop]; [done|].
  assert (∀ V1, settled graph (λ _, False) V1 ∅ → mid ∈ V1 →
            cycles_loop graph fuel modules ids V1 [] = Some (e :: rest) →
            ∃ r before after,
              circular_finding_of modules r e
              ∧ mid :: ids = before ++ r :: after
              ∧ (∀ x, x ∈ before → ¬ ∃ c, rtc (edge graph) x c ∧ tc (edge graph) c c)
              ∧ ∃ c, rtc (edge graph) r c ∧ tc (edge graph) c c) as Hskip.
  { intros V1 Hset1 Hmid1 Hloop.
    destruct (IH _ _ _ Hset1 Hloop) as (r & before & after & He & -> & Hbefore & Hr).
    exists r, (mid :: before), after. split; [done|]. split; [done|]. split; [|done].
    intros x [->|Hx]%elem_of_cons; [by eapply settled_no_cycle|by apply Hbefore]. }
  case_decide as Hmid; [|by apply Hskip].
  destruct (has_cycle graph fuel mid V ∅) as [[[b V1] R1]|] eqn:Hcall; [|done].
  destruct (has_cycle_basic graph fuel _ _ _ _ _ _ Hcall) as (HV & _ & HR);
    [done|set_solver|].
  destruct b.
  - destruct (dict_get modules mid) as [m|] eqn:Hm; simpl; [|done].
    intros (reported & errors' & Hres & _)%cycles_loop_order.
    simpl in Hres. injection Hres as -> ->.
    exists mid, [], ids. split; [by exists m|]. split; [done|].
    split; [by intros ? ?%elem_of_nil|].
    eapply has_cycle_sound; [exact Hcall|done|set_solver|set_solver].
  - specialize (HR eq_refl) as ->. apply Hskip; [|set_solver].
    eapply (has_cycle_complete graph (λ _, False)); [done|exact Hcall|done|set_solver|done].
Qed.

Lemma leads_to_cycle_graph ord modules u :
  (∃ c, rtc (edge (cycle_graph ord modules)) u c ∧ tc (edge (cycle_graph ord modules)) c c)
  ↔ leads_to_cycle modules u.
Proof.
  split.
  - intros (c & Huc & Hc).
    assert (on_cycle modules c) as Hcyc.
    { apply on_cycle_depends. eapply tc_impl; [|exact Hc]. intros a b. apply edge_cycle_graph. }
    exists c. split; [|done]. apply rtc_depends_registry; [|by apply on_cycle_in_registry].
    eapply rtc_subrel; [|exact Huc]. intros a b. apply edge_cycle_graph.
  - intros (c & Huc & Hc). exists c. split.
    + eapply rtc_subrel; [|exact Huc]. intros a b [Hab _]. by apply edge_cycle_graph.
    + apply on_cycle_depends in Hc. eapply tc_impl; [|exact Hc].
      intros a b. apply edge_cycle_graph.
Qed.

(** X5: the first finding of cycle detection names the first module, in the
    order of the registry, whose prerequisite chain leads into a cycle: no
    module before it does. *)
Theorem first_finding_is_first_into_cycle limit ord modules e rest :
  detect_cycles limit ord modules = Some (e :: rest) →
  ∃ r before after,
    circular_finding_of modules r e
    ∧ dict_keys modules = before ++ r :: after
    ∧ (∀ x, x ∈ before → ¬ leads_to_cycle modules x)
    ∧ leads_to_cycle modules r.
Proof.
  unfold detect_cycles. intros Hloop.
  apply cycles_loop_first in Hloop as (r & before & after & He & Hids & Hbefore & Hr).
  - exists r, before, after. split; [done|]. split.
    + by rewrite <-Hids, cycle_graph_keys.
    + split; [|by apply (leads_to_cycle_graph ord)].
      intros x Hx Hlead. apply (Hbefore x Hx). by apply leads_to_cycle_graph.
  - intros u Hu. set_solver.
Qed.

Lemma first_finding_is_first_into_cycle_witness :
  ∃ r before after,
    circular_finding_of registry_late_cycle r (CircularDependency 1 "Unknown"%string)
    ∧ dict_keys registry_late_cycle = before ++ r :: after
    ∧ (∀ x, x ∈ before → ¬ leads_to_cycle registry_late_cycle x)
    ∧ leads_to_cycle registry_late_cycle r.
Proof.
  apply (first_finding_is_first_into_cycle 1000 last_occurrence registry_late_cycle _ []).
  by vm_compute.
Defined.

(** ** Further properties: detect_orphans *)

Lemma sorted_strictly (s : gset Z) : StronglySorted Z.lt (sorted s).
Proof.
  unfold sorted.
  assert (NoDup (merge_sort Z.le (elements s))) as Hnodup.
  { rewrite merge_sort_Permutation. apply NoDup_elements. }
  pose proof (StronglySorted_merge_sort Z.le (elements s)) as Hsorted.
  induction Hsorted as [|x l Hl IH Hall]; [constructor|].
  apply NoDup_cons in Hnodup as [Hx Hnodup]. constructor; [by apply IH|].
  rewrite Forall_forall in Hall |- *. intros y Hy.
  assert (x ≠ y) by (by intros ->). specialize (Hall y Hy). lia.
Qed.

Lemma sorted_nil_inv (s : gset Z) : sorted s = [] → s = ∅.
Proof.
  intros Hnil. apply set_eq. intros x. rewrite <-elem_of_sorted, Hnil. set_solver.
Qed.

(** The three ways [detect_orphans] ends, with what the finding holds. *)
Lemma detect_orphans_cases modules :
  let graph := orphan_graph modules in
  (foundation_of graph = ∅ ∧ detect_orphans modules = Some [NoFoundationModules])
  ∨ (foundation_of graph ≠ ∅
     ∧ ∃ reachable passes,
         expand_reachable graph (S (length graph)) (foundation_of graph)
           = Some (reachable, passes)
         ∧ foundation_of graph ⊆ reachable
         ∧ ((list_to_set (dict_keys modules) ∖ reachable = (∅ : gset Z)
             ∧ detect_orphans modules = Some [])
            ∨ ∃ details,
                detect_orphans modules
                  = Some [UnreachableModules details (sorted (foundation_of graph))]
                ∧ details ≠ []
                ∧ details.*1 = sorted (list_to_set (dict_keys modules) ∖ reachable)
                ∧ Forall (λ d, ∃ m, dict_get modules d.1 = Some m ∧ d.2 = get_title m)
                         details)).
Proof.
  intros graph. unfold detect_orphans. fold graph.
  destruct (decide (foundation_of graph = ∅)) as [Hnone|Hsome]; [by left|right].
  split; [done|].
  destruct (expand_reachable_spec graph (λ _, True) (λ _ _ _ _ _ _, I)
              (S (length graph)) (foundation_of graph))
    as (reachable & passes & Hloop & _ & Hsub & _); [|done|].
  { assert (size (list_to_set graph.*1 ∖ foundation_of graph : gset Z)
            ≤ size (list_to_set graph.*1 : gset Z))%nat by (apply subseteq_size; set_solver).
    pose proof (size_list_to_set_le graph.*1) as Hle. rewrite length_fmap in Hle. lia. }
  exists reachable, passes. split; [done|]. split; [done|].
  rewrite Hloop. simpl.
  replace (dict_keys graph) with (dict_keys modules) by (symmetry; apply orphan_graph_keys).
  set (orphaned := list_to_set (dict_keys modules) ∖ reachable : gset Z).
  destruct (decide (orphaned = ∅)) as [Hempty|Hne]; [by left|right].
  destruct (mapM _ (sorted orphaned)) as [details|] eqn:Hmap; simpl.
  - exists details. split; [done|].
    apply mapM_Some_1 in Hmap.
    assert (details.*1 = sorted orphaned
            ∧ Forall (λ d, ∃ m, dict_get modules d.1 = Some m ∧ d.2 = get_title m) details)
      as [Hfst Htitles].
    { induction Hmap as [|mid d ids ds Hd _ [IH1 IH2]]; [by split|].
      destruct (dict_get modules mid) as [m|] eqn:Hm; simplify_eq/=.
      split; [by f_equal|]. constructor; [|done]. by exists m. }
    split; [|done]. intros ->. simpl in Hfst. symmetry in Hfst.
    by apply sorted_nil_inv in Hfst.
  - exfalso. destruct (orphan_details_Some modules (sorted orphaned)) as (details & Hmap' & _).
    + intros mid Hmid%elem_of_sorted. unfold orphaned in Hmid.
      apply elem_of_difference in Hmid as [Hmid _]. by apply elem_of_list_to_set in Hmid.
    + congruence.
Qed.

(** X6: an unreachable-modules finding is the only finding of orphan
    analysis; it lists the orphans in strictly ascending order of id, each
    with the title of its record, and the foundation modules in strictly
    ascending order; both lists are non-empty, the foundation list holds
    exactly the modules with an empty prerequisite list, and no foundation
    module is among the orphans. *)
Theorem unreachable_finding_contents modules errors details foundation :
  detect_orphans modules = Some errors →
  UnreachableModules details foundation ∈ errors →
  errors = [UnreachableModules details foundation]
  ∧ StronglySorted Z.lt details.*1 ∧ StronglySorted Z.lt foundation
  ∧ details ≠ [] ∧ foundation ≠ []
  ∧ (∀ mid, mid ∈ foundation ↔ ∃ m, (mid, m) ∈ modules ∧ prerequisites m = [])
  ∧ (∀ mid, mid ∈ foundation → mid ∉ details.*1)
  ∧ Forall (λ d, ∃ m, dict_get modules d.1 = Some m ∧ d.2 = get_title m) details.
Proof.
  intros Hrun Hin.
  destruct (detect_orphans_cases modules)
    as [[_ Hrun']|(Hsome & reachable & passes & _ & Hsub & [[_ Hrun']|Hcase])].
  - rewrite Hrun in Hrun'. simplify_eq. by apply list_elem_of_singleton in Hin.
  - rewrite Hrun in Hrun'. simplify_eq. by apply elem_of_nil in Hin.
  - destruct Hcase as (details' & Hrun' & Hne & Hfst & Htitles).
    rewrite Hrun in Hrun'. simplify_eq. apply list_elem_of_singleton in Hin. simplify_eq.
    split; [done|]. split; [rewrite Hfst; apply sorted_strictly|].
    split; [apply sorted_strictly|]. split; [done|]. split.
    { intros Hnil. by apply sorted_nil_inv in Hnil. }
    split; [|split; [|done]].
    + intros mid. by rewrite elem_of_sorted, elem_of_foundation_of.
    + intros mid Hmid%elem_of_sorted. rewrite Hfst, elem_of_sorted. set_solver.
Qed.

Lemma unreachable_finding_contents_witness :
  [UnreachableModules [(2, "Unknown"%string)] [0; 1]]
    = [UnreachableModules [(2, "Unknown"%string)] [0; 1]]
  ∧ StronglySorted Z.lt [(2, "Unknown"%string)].*1 ∧ StronglySorted Z.lt [0; 1]
  ∧ [(2, "Unknown"%string)] ≠ [] ∧ [0; 1] ≠ []
  ∧ (∀ mid, mid ∈ [0; 1] ↔ ∃ m, (mid, m) ∈ registry_dangling ∧ prerequisites m = [])
  ∧ (∀ mid, mid ∈ [0; 1] → mid ∉ [(2, "Unknown"%string)].*1)
  ∧ Forall (λ d, ∃ m, dict_get registry_dangling d.1 = Some m ∧ d.2 = get_title m)
           [(2, "Unknown"%string)].
Proof.
  apply (unreachable_finding_contents registry_dangling
           [UnreachableModules [(2, "Unknown"%string)] [0; 1]]).
  - by vm_compute.
  - left.
Defined.

(** In an acyclic registry without dangling references every module is in
    the prerequisite-satisfaction closure. *)
Lemma acyclic_all_satisfied modules :
  acyclic modules →
  (∀ M m P, (M, m) ∈ modules → P ∈ prerequisites m → in_registry modules P) →
  ∀ u, in_registry modules u → satisfied modules u.
Proof.
  intros Hacyc Hrefs u.
  assert (sn (registry_edge modules) u) as Hsn.
  { apply tc_finite_sn; [exact Hacyc|]. exists (dict_keys modules).
    intros y Hy. apply dict_get_is_Some.
    induction Hy as [x y [_ Hy]|]; done. }
  induction Hsn as [u _ IH]. intros [m Hm].
  apply (satisfied_intro _ u m Hm). intros p Hp.
  assert (in_registry modules p) as Hkey.
  { eapply Hrefs; [|exact Hp]. by apply dict_get_Some_elem. }
  apply IH; [|done]. split; [|done]. by exists m.
Qed.

Lemma no_orphans_when_valid modules :
  NoDup (dict_keys modules) → modules ≠ [] →
  acyclic modules →
  (∀ M m P, (M, m) ∈ modules → P ∈ prerequisites m → in_registry modules P) →
  detect_orphans modules = Some [].
Proof.
  intros Hnodup Hne Hacyc Hrefs.
  pose proof (acyclic_all_satisfied modules Hacyc Hrefs) as Hsat.
  destruct (detect_orphans_cases modules)
    as [[Hnone _]|(_ & reachable & passes & Hloop & _ & [[_ Hrun]|Hcase])]; [|done|].
  - exfalso. assert (∃ k, in_registry modules k) as [k Hk].
    { clear -Hne. destruct modules as [|[k m] ?]; [done|].
      exists k, m. simpl. by rewrite decide_True. }
    destruct (satisfied_hop_reachable modules k (Hsat k Hk)) as (f & (mf & Hf & Hmf) & _).
    revert Hnone. apply foundation_of_nonempty. exists f, mf.
    split; [by apply dict_get_Some_elem|done].
  - exfalso. destruct Hcase as (details & _ & Hdetails & Hfst & _).
    destruct details as [|[mid t] details]; [done|].
    assert (mid ∈ sorted (list_to_set (dict_keys modules) ∖ reachable)) as Hmid
      by (rewrite <-Hfst; left).
    apply elem_of_sorted, elem_of_difference in Hmid as [Hkey Hout].
    apply Hout, (reachable_satisfied modules reachable passes Hnodup Hloop), Hsat.
    apply elem_of_list_to_set in Hkey. by apply dict_get_is_Some.
Qed.

(** X7: the orphan check adds nothing to the two checks before it: on a
    non-empty registry with distinct ids, when reference validation and
    cycle detection return no finding, orphan detection returns none. *)
Theorem orphan_check_is_implied limit ord modules :
  NoDup (dict_keys modules) → modules ≠ [] →
  validate_prerequisite_references modules = [] →
  detect_cycles limit ord modules = Some [] →
  detect_orphans modules = Some [].
Proof.
  intros Hnodup Hne Hrefs Hcycles. apply no_orphans_when_valid; [done|done| |].
  - by apply (detect_cycles_nil_iff limit ord modules []).
  - by apply validate_prerequisite_references_nil.
Qed.

Lemma orphan_check_is_implied_witness : detect_orphans registry_valid = Some [].
Proof.
  apply (orphan_check_is_implied 1000 last_occurrence registry_valid).
  - apply NoDup_keys_decide. vm_compute. reflexivity.
  - discriminate.
  - reflexivity.
  - by vm_compute.
Defined.

(** ** Further properties: validate_progression_rules *)

(** What the check of one edge appends: the finding of the edge, with the
    title of the module and the level names of both records. *)
Lemma check_progression_contents modules M mM P e :
  e ∈ check_progression modules M mM P ↔
  ∃ mP pb cb ps cs,
    dict_get modules P = Some mP
    ∧ bloom_level mM = Some cb ∧ bloom_level mP = Some pb
    ∧ scaffolding_level mM = Some cs ∧ scaffolding_level mP = Some ps
    ∧ violates_progression mM mP
    ∧ e = ProgressionViolation M (get_title mM) pb cb ps cs P.
Proof.
  unfold check_progression, violates_progression, complexity_index, support_index.
  generalize BLOOM_ORDER SCAFFOLDING_VALUE. intros order values.
  destruct (dict_get modules P) as [mP|];
    [|split; [by intros ?%elem_of_nil|by intros (? & ? & ? & ? & ? & ? & _)]].
  split.
  - intros He. exists mP.
    destruct (bloom_level mM) as [cb|], (bloom_level mP) as [pb|];
      try (by apply elem_of_nil in He). simpl.
    destruct (list_index cb order) as [cM|] eqn:HcM, (list_index pb order) as [cP|] eqn:HcP;
      try (by apply elem_of_nil in He).
    destruct (scaffolding_level mM) as [cs|], (scaffolding_level mP) as [ps|];
      try (by apply elem_of_nil in He). simpl.
    destruct (str_dict_get values cs) as [sM|] eqn:HsM,
             (str_dict_get values ps) as [sP|] eqn:HsP;
      try (by apply elem_of_nil in He).
    case_decide as Hrule; [|by apply elem_of_nil in He].
    apply list_elem_of_singleton in He. exists pb, cb, ps, cs.
    do 5 (split; [done|]). split; [|done].
    exists cM, cP, sM, sP. destruct Hrule. by repeat split.
  - intros (mP' & pb & cb & ps & cs & [= <-] & Hcb & Hpb & Hcs & Hps & Hv & ->).
    destruct Hv as (cM & cP & sM & sP & HcM & HcP & HsM & HsP & Hc & Hs).
    rewrite Hcb, Hpb, Hcs, Hps in *. simpl in *.
    rewrite HcM, HcP, HsM, HsP. rewrite decide_True by done. left.
Qed.

Lemma validate_progression_rules_nil modules :
  validate_progression_rules modules = [] ↔
  ∀ M mM P mP, (M, mM) ∈ modules → P ∈ prerequisites mM →
    dict_get modules P = Some mP → ¬ violates_progression mM mP.
Proof.
  split.
  - intros Hnil M mM P mP Hin HP HmP Hv.
    destruct (proj2 (check_progression_spec modules M mM P)) as [e He].
    { destruct Hv as (cM & cP & sM & sP & ? & ? & ? & ? & ? & ?).
      by exists mP, cM, cP, sM, sP. }
    assert (e ∈ validate_progression_rules modules) as Hin'.
    { apply elem_of_validate_progression_rules. by exists M, mM, P. }
    rewrite Hnil in Hin'. by apply elem_of_nil in Hin'.
  - intros Hall. destruct (validate_progression_rules modules) as [|e l] eqn:He; [done|].
    assert (e ∈ validate_progression_rules modules) as Hin by (rewrite He; left).
    apply elem_of_validate_progression_rules in Hin as (M & mM & P & Hin & HP & Hc).
    apply check_progression_contents in Hc as (mP & ? & ? & ? & ? & HmP & _ & _ & _ & _ & Hv & _).
    by destruct (Hall M mM P mP Hin HP HmP).
Qed.

(** X8: the progression check reports module [M] against prerequisite [P]
    exactly when a record of [M] lists [P], [P] is a key of the registry and
    the edge raises the complexity index while lowering the support index; the
    finding carries the title of [M] and the level names of both records. *)
Theorem progression_finding_contents modules M t pb cb ps cs P :
  ProgressionViolation M t pb cb ps cs P ∈ validate_progression_rules modules ↔
  ∃ mM mP,
    (M, mM) ∈ modules ∧ P ∈ prerequisites mM ∧ dict_get modules P = Some mP
    ∧ t = get_title mM
    ∧ bloom_level mM = Some cb ∧ bloom_level mP = Some pb
    ∧ scaffolding_level mM = Some cs ∧ scaffolding_level mP = Some ps
    ∧ violates_progression mM mP.
Proof.
  rewrite elem_of_validate_progression_rules. split.
  - intros (M' & mM & P' & Hin & HP & He).
    apply check_progression_contents in He
      as (mP & pb' & cb' & ps' & cs' & HmP & ? & ? & ? & ? & Hv & [= -> -> -> -> -> -> ->]).
    by exists mM, mP.
  - intros (mM & mP & Hin & HP & HmP & -> & ? & ? & ? & ? & Hv).
    exists M, mM, P. split; [done|]. split; [done|].
    apply check_progression_contents. by exists mP, pb, cb, ps, cs.
Qed.

Lemma list_index_BLOOM_ORDER b i :
  list_index b BLOOM_ORDER = Some i →
  0 ≤ i ≤ 5 ∧ (b = "Remember"%string → i = 0) ∧ (b = "Create"%string → i = 5).
Proof.
  unfold BLOOM_ORDER. simpl. repeat case_decide; simpl; intros [= <-]; subst;
    (split; [lia|]); split; intros; simplify_eq; done.
Qed.

Lemma str_dict_get_SCAFFOLDING_VALUE s v :
  str_dict_get SCAFFOLDING_VALUE s = Some v →
  1 ≤ v ≤ 3 ∧ (s = "HIGH"%string → v = 3) ∧ (s = "LOW"%string → v = 1).
Proof.
  unfold SCAFFOLDING_VALUE. simpl. repeat case_decide; simpl; intros [= <-]; subst;
    (split; [lia|]); split; intros; simplify_eq; done.
Qed.

(** X9: the progression check never reports a module at the lowest Bloom
    level or at the highest scaffolding level, never against a prerequisite
    at the highest Bloom level or at the lowest scaffolding level, and never
    when the two modules share a Bloom level or a scaffolding level. *)
Theorem boundary_levels_never_reported modules M t pb cb ps cs P :
  ProgressionViolation M t pb cb ps cs P ∈ validate_progression_rules modules →
  cb ≠ "Remember"%string ∧ cs ≠ "HIGH"%string
  ∧ pb ≠ "Create"%string ∧ ps ≠ "LOW"%string
  ∧ cb ≠ pb ∧ cs ≠ ps.
Proof.
  intros He. apply elem_of_validate_progression_rules in He as (M' & mM & P' & _ & _ & He).
  apply check_progression_contents in He
    as (mP & pb' & cb' & ps' & cs' & _ & Hcb & Hpb & Hcs & Hps & Hv & [= _ _ -> -> -> -> _]).
  destruct Hv as (cM & cP & sM & sP & HcM & HcP & HsM & HsP & Hc & Hs).
  unfold complexity_index, support_index in *.
  rewrite Hcb in HcM. rewrite Hpb in HcP. rewrite Hcs in HsM. rewrite Hps in HsP.
  simpl in HcM, HcP, HsM, HsP.
  destruct (list_index_BLOOM_ORDER _ _ HcM) as (? & HcM0 & _).
  destruct (list_index_BLOOM_ORDER _ _ HcP) as (? & _ & HcP5).
  destruct (str_dict_get_SCAFFOLDING_VALUE _ _ HsM) as (? & HsM3 & _).
  destruct (str_dict_get_SCAFFOLDING_VALUE _ _ HsP) as (? & _ & HsP1).
  repeat split.
  - intros Heq. specialize (HcM0 Heq). lia.
  - intros Heq. specialize (HsM3 Heq). lia.
  - intros Heq. specialize (HcP5 Heq). lia.
  - intros Heq. specialize (HsP1 Heq). lia.
  - intros ->. rewrite HcM in HcP. simplify_eq. lia.
  - intros ->. rewrite HsM in HsP. simplify_eq. lia.
Qed.

Lemma boundary_levels_never_reported_witness :
  "Create"%string ≠ "Remember"%string ∧ "LOW"%string ≠ "HIGH"%string
  ∧ "Remember"%string ≠ "Create"%string ∧ "HIGH"%string ≠ "LOW"%string
  ∧ "Create"%string ≠ "Remember"%string ∧ "LOW"%string ≠ "HIGH"%string.
Proof.
  apply (boundary_levels_never_reported registry_harder_unsupported 1 "Unknown" _ _ _ _ 0).
  vm_compute. left.
Defined.

(** ** Further properties: main *)



(** Without dangling ids the registry names no id but its keys. *)
Lemma graph_ids_no_dangling modules :
  (∀ M m P, (M, m) ∈ modules → P ∈ prerequisites m → in_registry modules P) →
  (size (graph_ids modules) ≤ length modules)%nat.
Proof.
  intros Hrefs.
  assert (graph_ids modules ⊆ list_to_set (dict_keys modules)) as Hsub.
  { intros x Hx. apply elem_of_list_to_set.
    apply elem_of_list_to_set, list_elem_of_In, in_flat_map in Hx as ([k m] & Hin & Hx).
    apply list_elem_of_In in Hin. simpl in Hx. destruct Hx as [<-|Hx].
    - apply list_elem_of_fmap. by exists (k, m).
    - apply dict_get_is_Some. eapply Hrefs; [exact Hin|]. by apply list_elem_of_In. }
  apply subseteq_size in Hsub.
  pose proof (size_list_to_set_le (dict_keys modules)) as Hle.
  unfold dict_keys in *. rewrite length_fmap in Hle. lia.
Qed.

(** X10: when the modules directory loads and the visualization does not
    end in an error other than [ImportError], [main] exits with status 0 only
    on a valid graph (a non-empty registry in which every listed prerequisite
    is a key, no module is on a cycle and no edge breaks the progression
    rule), and it does exit with status 0 on every valid graph that has no
    more modules than the recursion limit admits nested calls. *)
Theorem exit_zero_means_valid_graph limit ord module_dirs modules warnings visualize viz :
  discover_modules module_dirs = inr (modules, warnings) →
  ¬ (visualize = true ∧ viz = VizRaises) →
  let run := main limit ord (PathDirectory module_dirs) visualize viz in
  (exit_code run = 0 → valid_graph modules)
  ∧ (valid_graph modules → (length modules ≤ limit)%nat → exit_code run = 0).
Proof.
  intros Hload Hviz. cbv zeta.
  pose proof (discover_modules_NoDup _ _ _ Hload) as Hnodup.
  unfold valid_graph.
  rewrite <-validate_prerequisite_references_nil, <-validate_progression_rules_nil.
  destruct (decide (modules = [])) as [->|Hne].
  { unfold main. rewrite Hload. simpl. split; [done|]. by intros [? _]. }
  rewrite (main_loaded _ _ _ _ _ _ _ Hload Hne). split.
  - destruct (run_checks limit ord modules) as [all_errors|] eqn:Hrun; [|done].
    unfold run_checks in Hrun.
    destruct (detect_cycles limit ord modules) as [cycles|] eqn:Hc; [|done].
    destruct (detect_orphans modules) as [orphans|] eqn:Ho; [|done].
    simpl in Hrun. injection Hrun as <-.
    destruct visualize, viz; simpl; try (by destruct Hviz);
      (case_decide as Hlen; [|done]); intros _;
      apply nil_length_inv in Hlen;
      apply app_eq_nil in Hlen as [[[Hrefs ->]%app_eq_nil _]%app_eq_nil Hprog];
      (split; [done|]); (split; [done|]); (split; [|done]);
      by apply (detect_cycles_nil_iff limit ord modules []).
  - intros (_ & Hrefs & Hacyc & Hprog) Hlimit.
    destruct (detect_cycles_within_limit limit ord modules) as (cycles & Hc & _).
    { pose proof (graph_ids_no_dangling modules
                    (proj1 (validate_prerequisite_references_nil modules) Hrefs)). lia. }
    assert (cycles = []) as -> by (by apply (detect_cycles_nil_iff limit ord modules)).
    assert (detect_orphans modules = Some []) as Ho.
    { apply no_orphans_when_valid; [done|done|done|].
      by apply validate_prerequisite_references_nil. }
    unfold run_checks. rewrite Hc, Ho, Hrefs, Hprog. simpl.
    destruct visualize, viz; simpl; try done; by destruct Hviz.
Qed.

Lemma exit_zero_means_valid_graph_witness :
  let run := main 1000 last_occurrence (PathDirectory dirs_valid) true VizImportError in
  (exit_code run = 0 → valid_graph registry_valid)
  ∧ (valid_graph registry_valid → (length registry_valid ≤ 1000)%nat → exit_code run = 0).
Proof.
  apply (exit_zero_means_valid_graph 1000 last_occurrence dirs_valid registry_valid []).
  - reflexivity.
  - by intros [_ ?].
Defined.


(** ** Further properties: the recursion limit *)

(** X15: cycle detection raises no [RecursionError] when the recursion limit
    admits one nested call for every id the registry names, and a finding
    list it returns within any other limit is the same list. *)
Theorem cycle_detection_within_recursion_limit limit ord modules :
  (size (graph_ids modules) ≤ limit)%nat →
  ∃ errors,
    detect_cycles limit ord modules = Some errors
    ∧ ∀ limit' errors', detect_cycles limit' ord modules = Some errors' → errors' = errors.
Proof.
  intros Hlimit.
  destruct (detect_cycles_within_limit limit ord modules Hlimit) as (errors & Hrun & _).
  exists errors. split; [done|]. intros limit' errors' Hrun'.
  apply (detect_cycles_mono limit (limit `max` limit')) in Hrun; [|lia].
  apply (detect_cycles_mono limit' (limit `max` limit')) in Hrun'; [|lia].
  congruence.
Qed.

Lemma cycle_detection_within_recursion_limit_witness :
  ∃ errors,
    detect_cycles 4 last_occurrence registry_late_cycle = Some errors
    ∧ ∀ limit' errors',
        detect_cycles limit' last_occurrence registry_late_cycle = Some errors' →
        errors' = errors.
Proof.
  apply (cycle_detection_within_recursion_limit 4 last_occurrence registry_late_cycle).
  apply Nat.leb_le. by vm_compute.
Defined.

(** ** Further properties: generate_visualization *)

Lemma elem_of_add_nodes modules call :
  call ∈ add_nodes modules ↔
  ∃ k m, (k, m) ∈ modules
         ∧ call = DotNode k (default "Unknown"%string (bloom_level m))
                    (default "Unknown"%string (scaffolding_level m)) (fillcolor_of m).
Proof.
  unfold add_nodes. rewrite list_elem_of_fmap. split.
  - intros ([k m] & -> & Hin). by exists k, m.
  - intros (k & m & Hin & ->). by exists (k, m).
Qed.

Lemma elem_of_add_edges modules call :
  call ∈ add_edges modules ↔
  ∃ k m p, (k, m) ∈ modules ∧ p ∈ prerequisites m ∧ in_registry modules p
           ∧ call = DotEdge p k.
Proof.
  unfold add_edges. rewrite list_elem_of_In, in_flat_map. split.
  - intros ([k m] & Hin & He). apply in_flat_map in He as (p & Hp & He).
    exists k, m, p. rewrite !list_elem_of_In. split; [done|]. split; [done|].
    destruct (dict_mem modules p) eqn:Hmem; [|by destruct He].
    destruct He as [<-|[]]. split; [|done]. by apply dict_get_is_Some, dict_mem_true.
  - intros (k & m & p & Hin & Hp & Hkey & ->). exists (k, m).
    split; [by apply list_elem_of_In|]. apply in_flat_map. exists p.
    split; [by apply list_elem_of_In|].
    apply dict_get_is_Some, dict_mem_true in Hkey. rewrite Hkey. by left.
Qed.

(** X12: the drawing is the prerequisite graph over the keys of the
    registry: a node is drawn exactly for every key, and an edge from [p] to
    [m] exactly when module [m] lists the key [p]; no edge ends in a node
    that was not declared. *)
Theorem drawing_is_registry_graph modules :
  NoDup (dict_keys modules) →
  (∀ k, (∃ b s c, DotNode k b s c ∈ generate_visualization modules) ↔ in_registry modules k)
  ∧ (∀ p m, DotEdge p m ∈ generate_visualization modules ↔ registry_edge modules m p).
Proof.
  intros Hnodup. unfold generate_visualization. split.
  - intros k. setoid_rewrite elem_of_app. split.
    + intros (b & s & c & [Hin|Hin]).
      * apply elem_of_add_nodes in Hin as (k' & m & Hin & [= -> _ _ _]).
        exists m. by apply dict_get_NoDup.
      * by apply elem_of_add_edges in Hin as (? & ? & ? & _ & _ & _ & ?).
    + intros [m Hm]. do 3 eexists. left. apply elem_of_add_nodes.
      exists k, m. split; [by apply dict_get_Some_elem|done].
  - intros p m. rewrite elem_of_app. split.
    + intros [Hin|Hin].
      * by apply elem_of_add_nodes in Hin as (? & ? & _ & ?).
      * apply elem_of_add_edges in Hin as (k & mm & p' & Hin & Hp & Hkey & [= -> ->]).
        split; [|done]. exists mm. split; [by apply dict_get_NoDup|done].
    + intros [(mm & Hmm & Hp) Hkey]. right. apply elem_of_add_edges.
      exists m, mm, p. split; [by apply dict_get_Some_elem|done].
Qed.

Lemma drawing_is_registry_graph_witness :
  (∀ k, (∃ b s c, DotNode k b s c ∈ generate_visualization registry_valid)
        ↔ in_registry registry_valid k)
  ∧ (∀ p m, DotEdge p m ∈ generate_visualization registry_valid
            ↔ registry_edge registry_valid m p).
Proof.
  apply (drawing_is_registry_graph registry_valid).
  apply NoDup_keys_decide. vm_compute. reflexivity.
Defined.

(** X13: every entry of a prerequisite list is either drawn as an edge or
    reported as a dangling reference, never both: the calls of the drawing
    and the findings of reference validation together are as many as the
    modules and the listed prerequisites. *)
Theorem every_prerequisite_drawn_or_reported modules :
  (length (generate_visualization modules)
   + length (validate_prerequisite_references modules)
   = length modules + length (listed_prerequisites modules))%nat.
Proof.
  unfold generate_visualization, add_nodes, add_edges, validate_prerequisite_references,
    listed_prerequisites.
  rewrite length_app, length_fmap.
  generalize (dict_mem modules). intros mem.
  enough (length (flat_map (λ '(module_id, module),
              flat_map (λ prereq_id,
                  if mem prereq_id then [DotEdge prereq_id module_id] else [])
                (prerequisites module)) modules)
          + length (flat_map (λ '(module_id, metadata),
              flat_map (λ prereq_id,
                  if mem prereq_id then []
                  else [DanglingPrerequisite module_id (get_title metadata) prereq_id])
                (prerequisites metadata)) modules)
          = length (flat_map (λ d, prerequisites d.2) modules))%nat by lia.
  induction modules as [|[k m] modules IH]; [done|].
  simpl. rewrite !length_app.
  enough (length (flat_map (λ prereq_id,
              if mem prereq_id then [DotEdge prereq_id k] else []) (prerequisites m))
          + length (flat_map (λ prereq_id,
              if mem prereq_id then []
              else [DanglingPrerequisite k (get_title m) prereq_id]) (prerequisites m))
          = length (prerequisites m))%nat by lia.
  clear IH. induction (prerequisites m) as [|p ps IHp]; [done|].
  simpl. rewrite !length_app. destruct (mem p); simpl; lia.
Qed.

Lemma colors_get_SCAFFOLDING_VALUE s :
  colors_get colors s = None ↔ str_dict_get SCAFFOLDING_VALUE s = None.
Proof.
  unfold colors, SCAFFOLDING_VALUE. simpl. by repeat case_decide.
Qed.

Lemma colors_get_not_white s c : colors_get colors s = Some c → c ≠ "white"%string.
Proof.
  unfold colors. simpl. repeat case_decide; by intros [= <-].
Qed.

(** X14: the node of a module carries its Bloom and scaffolding level
    (["Unknown"] for an absent one), and it is filled white exactly when the
    scaffolding level is none of those the progression check scores. *)
Theorem white_nodes_are_unscored modules k b s c :
  DotNode k b s c ∈ generate_visualization modules →
  ∃ m, (k, m) ∈ modules
       ∧ b = default "Unknown"%string (bloom_level m)
       ∧ s = default "Unknown"%string (scaffolding_level m)
       ∧ (c = "white"%string ↔ support_index m = None).
Proof.
  unfold generate_visualization. rewrite elem_of_app. intros [Hin|Hin].
  - apply elem_of_add_nodes in Hin as (k' & m & Hin & [= -> -> -> ->]).
    exists m. do 3 (split; [done|]).
    unfold fillcolor_of, support_index.
    destruct (scaffolding_level m) as [lvl|]; [|done].
    change (default "white"%string (colors_get colors lvl) = "white"%string
            ↔ str_dict_get SCAFFOLDING_VALUE lvl = None).
    rewrite <-colors_get_SCAFFOLDING_VALUE.
    destruct (colors_get colors lvl) as [c|] eqn:Hc; [|done].
    split; [|done]. intros Hwhite. by apply colors_get_not_white in Hc.
  - by apply elem_of_add_edges in Hin as (? & ? & ? & _ & _ & _ & ?).
Qed.

Lemma white_nodes_are_unscored_witness :
  ∃ m, (0, m) ∈ registry_dangling
       ∧ "Unknown"%string = default "Unknown"%string (bloom_level m)
       ∧ "Unknown"%string = default "Unknown"%string (scaffolding_level m)
       ∧ ("white"%string = "white"%string ↔ support_index m = None).
Proof.
  apply (white_nodes_are_unscored registry_dangling 0 "Unknown" "Unknown" "white").
  vm_compute. left.
Defined.
